(** * dm_env_wrappers: the action-noise wrapper

  A shallow embedding of [dm_env_wrappers/_src/action_noise.py] and of the
  parts of numpy, dm-tree and dm_env it calls, followed by the properties
  of the wrapper's construction and of its [step].

  Layout:
  - [F64]: binary64 values and the scalar operations numpy applies to them;
  - [Np]: [ndarray]s of the shapes [()] and [(n,)], broadcasting and the
    ufuncs in use;
  - [Py]: Python exceptions and the outcome of an evaluation;
  - [Tree]: dm-tree's nested structures, [flatten] and the structure check;
  - [Specs]: dm_env's [Array] and [BoundedArray];
  - [ActionNoise]: the heap, the exception monad and the wrapper itself;
  - [Contract]: the conditions and policies the properties are stated with;
  - [Example]: concrete inputs;
  - the properties, and their concrete runs.

  Arrays and generators are Python objects: they live in a heap and are
  passed by reference, so that writes in place and the sharing of a
  generator are visible.  Exceptions keep the class the library raises;
  their messages name the place that raises and shorten the library's
  text. *)

From Stdlib Require Import ZArith SpecFloat.
From stdpp Require Import gmap strings list.

Set Warnings "-register-all".

(** ** Binary64 *)

Module F64.

Definition prec : Z := 53.
Definition emax : Z := 1024.

Abbreviation float := spec_float.

Definition add : float → float → float := SFadd prec emax.
Definition sub : float → float → float := SFsub prec emax.
Definition mul : float → float → float := SFmul prec emax.
Definition ltb : float → float → bool := SFltb.
Definition leb : float → float → bool := SFleb.
Definition eqb : float → float → bool := SFeqb.

(** [m * 2^e], rounded to nearest even. *)
Definition make (m e : Z) : float := binary_normalize prec emax m e false.

(** Conversion of an integer, as [astype(float64)] does. *)
Definition of_int (z : Z) : float := make z 0.

Definition zero : float := S754_zero false.

Definition isnan (x : float) : bool :=
  match x with S754_nan => true | _ => false end.

Definition signbit (x : float) : bool :=
  match x with
  | S754_zero s | S754_infinity s | S754_finite s _ _ => s
  | S754_nan => false
  end.

Definition isfinite (x : float) : bool :=
  match x with
  | S754_zero _ | S754_finite _ _ _ => true
  | S754_infinity _ | S754_nan => false
  end.

(** numpy's clip kernel for floating types when a bound varies along the
    loop: [_NPY_MAX(a, b) = npy_isnan(a) ? a : (a > b ? a : b)], the same
    with [<] for [_NPY_MIN], and [_NPY_CLIP(x, lo, hi) =
    _NPY_MIN(_NPY_MAX(x, lo), hi)]. *)
Definition npy_max (a b : float) : float :=
  if isnan a then a else if ltb b a then a else b.
Definition npy_min (a b : float) : float :=
  if isnan a then a else if ltb a b then a else b.
Definition npy_clip (x lo hi : float) : float := npy_min (npy_max x lo) hi.

(** numpy's clip kernel for floating types when both bounds are constant
    along the loop: a bound that is NaN fills the output; otherwise
    [if (x < lo) x = lo; if (x > hi) x = hi;], which keeps an [x] that
    compares equal to a bound as it is, the sign of a zero included. *)
Definition npy_clip_const (lo hi x : float) : float :=
  if isnan lo then lo
  else if isnan hi then hi
  else
    let x1 := if ltb x lo then lo else x in
    if ltb hi x1 then hi else x1.

(** [lo <= v <= hi] as Python evaluates it on floats. *)
Definition within (lo hi v : float) : bool := leb lo v && leb v hi.

End F64.

(** ** numpy arrays of the shapes [()] and [(n,)] *)

Module Np.
Import F64.

Inductive dtype := float64 | int64.

#[export] Instance dtype_eq_dec : EqDecision dtype.
Proof. solve_decision. Defined.

(** The dtype, the shape and the elements of an array: float64 or int64, of
    shape [(n,)] or of shape [()].  An array of shape [()] holds one
    element; it is not an array of shape [(1,)], which matters when it is
    the output of an operation.  What numpy returns as a scalar of type
    [np.float64] or [np.int64] is an array of shape [()] here.  Other
    dtypes, arrays of higher rank and the leaves of an action that are not
    arrays (a Python [int] or [float]) are not modelled. *)
Inductive contents :=
| FloatArray (data : list float)
| IntArray (data : list Z)
| FloatScalar (x : float)
| IntScalar (z : Z).

(** An array object: its contents and [flags.writeable]. *)
Record ndarray := NdArray {
  contents_of : contents;
  writeable : bool
}.

(** An array that may be written, and one that may not, as the bounds of a
    dm_env spec are. *)
Definition array (c : contents) : ndarray := NdArray c true.
Definition read_only (c : contents) : ndarray := NdArray c false.

Definition dtype_of (c : contents) : dtype :=
  match c with
  | FloatArray _ | FloatScalar _ => float64
  | IntArray _ | IntScalar _ => int64
  end.

Definition shape (c : contents) : list nat :=
  match c with
  | FloatArray d => [length d]
  | IntArray d => [length d]
  | FloatScalar _ | IntScalar _ => []
  end.

Definition size (c : contents) : nat :=
  match c with
  | FloatArray d => length d
  | IntArray d => length d
  | FloatScalar _ | IntScalar _ => 1
  end.

(** [c.ndim == 0]. *)
Definition is_scalar (c : contents) : bool :=
  match c with
  | FloatScalar _ | IntScalar _ => true
  | FloatArray _ | IntArray _ => false
  end.

(** Two's complement wrap-around of int64 arithmetic. *)
Definition wrap64 (z : Z) : Z :=
  ((z + 2 ^ 63) mod 2 ^ 64 - 2 ^ 63)%Z.

(** The elements of [c.astype(np.float64)]. *)
Definition as_float (c : contents) : list float :=
  match c with
  | FloatArray d => d
  | IntArray d => of_int <$> d
  | FloatScalar x => [x]
  | IntScalar z => [of_int z]
  end.

(** The elements of an array of integers. *)
Definition as_int (c : contents) : option (list Z) :=
  match c with
  | IntArray d => Some d
  | IntScalar z => Some [z]
  | FloatArray _ | FloatScalar _ => None
  end.

(** The float64 array with the elements [d]: of shape [()] when [scalar]
    is set, and of shape [(n,)] otherwise. *)
Definition floats (scalar : bool) (d : list float) : contents :=
  match scalar, d with
  | true, [x] => FloatScalar x
  | _, _ => FloatArray d
  end.

(** The same for int64. *)
Definition ints (scalar : bool) (d : list Z) : contents :=
  match scalar, d with
  | true, [z] => IntScalar z
  | _, _ => IntArray d
  end.

(** Broadcasting of the elements of an operand to [n] elements: the
    numbers agree, or the operand has one element, which is repeated. *)
Definition broadcast_to {A} (l : list A) (n : nat) : option (list A) :=
  if decide (length l = n) then Some l
  else match l with
       | [x] => Some (replicate n x)
       | _ => None
       end.

(** The common number of elements of two operands. *)
Definition broadcast_shapes (a b : nat) : option nat :=
  if decide (a = b) then Some a
  else if decide (a = 1) then Some b
  else if decide (b = 1) then Some a
  else None.

Definition broadcast2 {A B C} (f : A → B → C) (l : list A) (k : list B)
  : option (list C) :=
  n ← broadcast_shapes (length l) (length k);
  l' ← broadcast_to l n;
  k' ← broadcast_to k n;
  Some (zip_with f l' k').

(** [a - b]: integer operands stay integers, anything else is promoted
    to float64; the result has shape [()] when both operands have.
    [None] when the shapes do not broadcast. *)
Definition subtract (a b : contents) : option contents :=
  let scalar := is_scalar a && is_scalar b in
  match as_int a, as_int b with
  | Some x, Some y => ints scalar <$> broadcast2 (λ u v, wrap64 (u - v)) x y
  | _, _ => floats scalar <$> broadcast2 sub (as_float a) (as_float b)
  end.

(** [s * a] for a Python float [s]: float64, of the shape of [a]. *)
Definition scalar_multiply (s : float) (a : contents) : contents :=
  floats (is_scalar a) (mul s <$> as_float a).

(** The argument check of [RandomState.normal]: [scale] is rejected when
    an element is not NaN and has its sign bit set. *)
Definition negative_scale (scale : list float) : bool :=
  existsb (λ s, negb (isnan s) && signbit s) scale.

(** One sample of [normal]: [loc + scale * gauss] with [loc = 0.0]. *)
Definition normal_sample (scale gauss : float) : float :=
  add zero (mul scale gauss).

Definition zip_with3 {A B C D} (f : A → B → C → D)
    (l : list A) (k : list B) (m : list C) : list D :=
  zip_with (λ x yz, f x yz.1 yz.2) l (zip k m).

(** The elements of the operand [src] as an operation reads them when its
    output is the array [dst]: the output is not broadcast, so the shape of
    [src] must broadcast to the shape [dst] has.  An operand of shape
    [(1,)] does not broadcast to the shape [()]. *)
Definition broadcast_into (src dst : contents) : option (list float) :=
  if is_scalar dst && negb (is_scalar src) then None
  else broadcast_to (as_float src) (size dst).

(** The same on the elements of an array of integers. *)
Definition broadcast_int_into (src dst : contents) : option (list Z) :=
  if is_scalar dst && negb (is_scalar src) then None
  else xs ← as_int src; broadcast_to xs (size dst).

(** The elements [np.clip(a, minimum, maximum, out=a)] computes in float64:
    when each bound has one element both are constant along the loop and
    numpy takes the kernel for constant bounds, otherwise the element-wise
    one.  [None] when a bound does not broadcast to the shape of [a]. *)
Definition clip (a minimum maximum : contents) : option (list float) :=
  los ← broadcast_into minimum a;
  his ← broadcast_into maximum a;
  Some (match as_float minimum, as_float maximum with
        | [lo], [hi] => npy_clip_const lo hi <$> as_float a
        | _, _ => zip_with3 npy_clip (as_float a) los his
        end).

(** The same in int64, where the two kernels compute the same. *)
Definition clip_int (a minimum maximum : contents) : option (list Z) :=
  xs ← as_int a;
  los ← broadcast_int_into minimum a;
  his ← broadcast_int_into maximum a;
  Some (zip_with3 (λ x l h, Z.min (Z.max x l) h) xs los his).

End Np.

(** ** Python exceptions and results *)

Module Py.

Inductive exn :=
| ValueError (msg : string)
| TypeError (msg : string)
| UFuncTypeError (msg : string)
| AttributeError (msg : string)
| AssertionError
| DanglingReference.

(** What evaluating an expression ends in: a value or a raised exception. *)
Inductive outcome (A : Type) :=
| Returned (a : A)
| Raised (e : exn).
Arguments Returned {A} a.
Arguments Raised {A} e.

Definition is_returned {A} (o : outcome A) : bool :=
  match o with Returned _ => true | Raised _ => false end.

End Py.

(** ** dm-tree: nested structures *)

Module Tree.
Import Py.

(** The containers dm-tree descends into.  A dict is traversed in the
    order of its sorted keys, so [KDict] carries the keys in that order and
    the children of the node are the values in the same order. *)
Inductive kind :=
| KList
| KTuple
| KDict (keys : list string).

Inductive nest (A : Type) :=
| Leaf (a : A)
| Node (k : kind) (children : list (nest A)).
Arguments Leaf {A} a.
Arguments Node {A} k children.

Section nest_induction.
Context {A : Type} (P : nest A → Prop).
Hypothesis HLeaf : ∀ a, P (Leaf a).
Hypothesis HNode : ∀ k children, Forall P children → P (Node k children).

Fixpoint nest_ind' (t : nest A) : P t :=
  match t with
  | Leaf a => HLeaf a
  | Node k children =>
      HNode k children
        ((fix go (l : list (nest A)) : Forall P l :=
            match l with
            | [] => List.Forall_nil P
            | x :: l' => List.Forall_cons P x l' (nest_ind' x) (go l')
            end) children)
  end.
End nest_induction.

(** [type(a) is type(b)] on containers. *)
Definition same_type (k1 k2 : kind) : bool :=
  match k1, k2 with
  | KList, KList | KTuple, KTuple | KDict _, KDict _ => true
  | _, _ => false
  end.

Definition same_keys (k1 k2 : kind) : bool :=
  match k1, k2 with
  | KDict ks1, KDict ks2 => bool_decide (ks1 = ks2)
  | _, _ => true
  end.

(** [tree.assert_same_structure(a, b, check_types=True)]: [None] when the
    two structures agree, the exception raised otherwise.  Leaves are never
    inspected: arrays and specs are leaves whatever their shapes. *)
Fixpoint assert_same_structure {A B} (a : nest A) (b : nest B) : option exn :=
  match a, b with
  | Leaf _, Leaf _ => None
  | Node k1 c1, Node k2 c2 =>
      if negb (same_type k1 k2) then
        Some (TypeError "The two structures don't have the same sequence type.")
      else if negb (same_keys k1 k2) then
        Some (ValueError "The two dictionaries don't have the same set of keys.")
      else
        (fix go (l1 : list (nest A)) (l2 : list (nest B)) : option exn :=
           match l1, l2 with
           | [], [] => None
           | x :: l1', y :: l2' =>
               match assert_same_structure x y with
               | Some e => Some e
               | None => go l1' l2'
               end
           | _, _ =>
               Some (ValueError "The two structures don't have the same number of elements.")
           end) c1 c2
  | _, _ =>
      Some (ValueError "The two structures don't have the same nested structure.")
  end.

(** Two structures are congruent when they have the same containers, with
    the same keys and the same number of children, all the way down. *)
Inductive congruent {A B} : nest A → nest B → Prop :=
| congruent_leaf a b : congruent (Leaf a) (Leaf b)
| congruent_node k c1 c2 :
    Forall2 congruent c1 c2 → congruent (Node k c1) (Node k c2).

(** [tree.flatten]: the leaves, depth first and left to right. *)
Fixpoint flatten {A} (t : nest A) : list A :=
  match t with
  | Leaf a => [a]
  | Node _ children => concat (map flatten children)
  end.

(** Rebuilds the containers of [t] around the values of [flat], consumed
    from the left; returns the values left over. *)
Fixpoint pack {A B} (t : nest A) (flat : list B) : option (nest B * list B) :=
  match t with
  | Leaf _ =>
      match flat with
      | [] => None
      | b :: flat' => Some (Leaf b, flat')
      end
  | Node k children =>
      '(cs, rest) ←
        (fix go (l : list (nest A)) (flat : list B)
           : option (list (nest B) * list B) :=
           match l with
           | [] => Some ([], flat)
           | x :: l' =>
               '(x', flat') ← pack x flat;
               '(l'', flat'') ← go l' flat';
               Some (x' :: l'', flat'')
           end) children flat;
      Some (Node k cs, rest)
  end.

(** [tree.unflatten_as(structure, flat_sequence)]. *)
Definition unflatten_as {A B} (structure : nest A) (flat : list B)
  : outcome (nest B) :=
  if decide (length (flatten structure) = length flat) then
    match pack structure flat with
    | Some (t, _) => Returned t
    | None => Raised (ValueError "Could not pack the sequence.")
    end
  else Raised (ValueError "Structure and flat sequence differ in length.").

End Tree.

(** ** dm_env specs *)

Module Specs.
Import Np.

(** [specs.Array] and its subclass [specs.BoundedArray].  The bounds of a
    [BoundedArray] are read-only arrays of the spec's dtype that broadcast
    to the spec's shape; the wrapper only reads their contents. *)
Inductive Array :=
| MkArray (shape : list nat) (dt : dtype)
| BoundedArray (shape : list nat) (dt : dtype) (minimum maximum : contents).

Definition shape (s : Array) : list nat :=
  match s with MkArray n _ | BoundedArray n _ _ _ => n end.

End Specs.

(** ** The wrapper *)

Module ActionNoise.
Import F64 Np Py Tree Specs.

(** References to heap objects. *)
Abbreviation loc := positive.

(** The Python values the constructor's [random_state] argument and the
    probed attributes can hold: [None], an [int], a reference to a
    [np.random.RandomState], or an object of any other class. *)
Inductive object :=
| PyNone
| PyInt (n : Z)
| PyRandomState (r : loc)
| PyObject (repr : string).

Definition isinstance_int (o : object) : bool :=
  match o with PyInt _ => true | _ => false end.

Definition isinstance_RandomState (o : object) : bool :=
  match o with PyRandomState _ => true | _ => false end.

(** The default of the [scale] parameter, the double nearest to 0.01. *)
Definition default_scale : float := S754_finite false 5764607523034235 (-59).

Section Wrapper.

(** The Mersenne Twister behind [np.random.RandomState]: its state (key,
    position and cached Gaussian), the standard normal sampler
    [legacy_gauss], and the seeding [RandomState(seed)] performs, which
    is [None] for a seed outside the range it accepts. *)
Variable mt_state : Type.
Variable legacy_gauss : mt_state → float * mt_state.
Variable legacy_seeding : Z → option mt_state.

(** What the wrapped environment's [step] returns. *)
Variable TimeStep : Type.

(** The heap: the arrays and the generators that references point to.
    [draws] counts the calls of [legacy_gauss]; it is a ghost field. *)
Record heap := Heap {
  arrays : gmap loc ndarray;
  generators : gmap loc mt_state;
  draws : nat
}.

(** Computations: they read and write the heap, and return or raise.  What
    was written before an exception stays written. *)
Definition M (A : Type) : Type := heap → outcome A * heap.

#[local] Instance M_ret : MRet M := λ A a h, (Returned a, h).
#[local] Instance M_bind : MBind M := λ A B f m h,
  match m h with
  | (Returned a, h') => f a h'
  | (Raised e, h') => (Raised e, h')
  end.

Definition raise {A} (e : exn) : M A := λ h, (Raised e, h).

Definition lift {A} (o : outcome A) : M A := λ h, (o, h).

Fixpoint mapM {A B} (f : A → M B) (l : list A) : M (list B) :=
  match l with
  | [] => mret []
  | x :: l' => y ← f x; ys ← mapM f l'; mret (y :: ys)
  end.

(** *** numpy on the heap *)

Definition get_array (a : loc) : M ndarray := λ h,
  match arrays h !! a with
  | Some v => (Returned v, h)
  | None => (Raised DanglingReference, h)
  end.

Definition set_array (a : loc) (v : ndarray) : M unit := λ h,
  (Returned (), Heap (<[a := v]> (arrays h)) (generators h) (draws h)).

(** [np.random.RandomState(seed)]: a new generator object.  [entropy] is the
    state an unseeded generator takes from the operating system. *)
Definition RandomState (seed : option Z) (entropy : mt_state) : M object := λ h,
  let new s :=
    let r := fresh (dom (generators h)) in
    (Returned (PyRandomState r),
     Heap (arrays h) (<[r := s]> (generators h)) (draws h)) in
  match seed with
  | None => new entropy
  | Some n =>
      match legacy_seeding n with
      | Some s => new s
      | None => (Raised (ValueError "Seed must be between 0 and 2**32 - 1"), h)
      end
  end.

(** The samples for the elements of [scale], drawn in order. *)
Fixpoint draw (scale : list float) (s : mt_state) : list float * mt_state :=
  match scale with
  | [] => ([], s)
  | sc :: scale' =>
      let '(g, s1) := legacy_gauss s in
      let '(noise, s2) := draw scale' s1 in
      (normal_sample sc g :: noise, s2)
  end.

(** [random_state.normal(scale=scale)]: an array of the shape of [scale],
    one sample for each of its elements. *)
Definition normal (random_state : object) (scale : contents) : M contents :=
  match random_state with
  | PyRandomState r => λ h,
      if negative_scale (as_float scale) then
        (Raised (ValueError "scale < 0"), h)
      else
        match generators h !! r with
        | None => (Raised DanglingReference, h)
        | Some s =>
            let '(noise, s') := draw (as_float scale) s in
            (Returned (floats (is_scalar scale) noise),
             Heap (arrays h) (<[r := s']> (generators h))
                  (draws h + size scale))
        end
  | _ => raise (AttributeError "normal")
  end.

(** The error of an operation whose operands do not fit its output [out]:
    the output would have to be broadcast, or the shapes do not broadcast
    at all.  [others] tells whether the operands other than the output
    broadcast among themselves. *)
Definition broadcast_error (out : contents) (others : bool) : exn :=
  ValueError (if bool_decide (size out = 1) && others
              then "non-broadcastable output operand"
              else "operands could not be broadcast together").

(** [action += noise]: the sum is written into [action]'s own buffer.  The
    array must be writeable, a float64 sum is not cast into an integer
    array, and [noise] must broadcast to [action]'s shape. *)
Definition iadd (action : loc) (noise : contents) : M unit :=
  a ← get_array action;
  if negb (writeable a) then raise (ValueError "output array is read-only")
  else
    let c := contents_of a in
    match dtype_of c with
    | int64 =>
        raise (UFuncTypeError
                 "Cannot cast ufunc 'add' output from float64 to int64")
    | float64 =>
        match broadcast_into noise c with
        | None => raise (broadcast_error c true)
        | Some nz =>
            set_array action
              (NdArray (floats (is_scalar c) (zip_with add (as_float c) nz))
                       true)
        end
    end.

(** [np.clip(action, minimum, maximum, out=action)]. *)
Definition clip_out (action : loc) (minimum maximum : contents) : M unit :=
  a ← get_array action;
  if negb (writeable a) then raise (ValueError "output array is read-only")
  else
    let c := contents_of a in
    let others :=
      bool_decide (is_Some (broadcast_shapes (size minimum) (size maximum))) in
    match dtype_of c, as_int minimum, as_int maximum with
    | int64, Some _, Some _ =>
        match clip_int c minimum maximum with
        | Some ys => set_array action (NdArray (ints (is_scalar c) ys) true)
        | None => raise (broadcast_error c others)
        end
    | int64, _, _ =>
        raise (UFuncTypeError
                 "Cannot cast ufunc 'clip' output from float64 to int64")
    | float64, _, _ =>
        match clip c minimum maximum with
        | Some ys => set_array action (NdArray (floats (is_scalar c) ys) true)
        | None => raise (broadcast_error c others)
        end
    end.

(** *** dm-tree on the heap *)

(** [tree.map_structure(func, s1, s2)]: the structures are compared first;
    then [func] is applied to the pairs of leaves in flattening order and
    the results are packed into the containers of [s1]. *)
Definition map_structure {A B C} (func : A → B → M C)
    (s1 : nest A) (s2 : nest B) : M (nest C) :=
  match assert_same_structure s1 s2 with
  | Some e => raise e
  | None =>
      results ← mapM (λ ab, func ab.1 ab.2) (zip (flatten s1) (flatten s2));
      lift (unflatten_as s1 results)
  end.

(** *** action_noise.py *)

Definition _corrupt_action (scale : float) (random_state : object)
    (action : loc) (spec : Specs.Array) : M loc :=
  match spec with
  | BoundedArray _ _ minimum maximum =>
      range ← match subtract maximum minimum with
              | Some d => mret d
              | None => raise (ValueError "operands could not be broadcast together")
              end;
      let noise_stddev := scalar_multiply scale range in
      noise ← normal random_state noise_stddev;
      iadd action noise;;
      clip_out action minimum maximum;;
      mret action
  | MkArray _ _ => mret action
  end.

Definition _corrupt_nested_action (nested_action : nest loc)
    (nested_spec : nest Specs.Array) (scale : float) (random_state : object)
  : M (nest loc) :=
  map_structure (_corrupt_action scale random_state) nested_action nested_spec.

(** The environment handed to the wrapper: its action spec, its [step], and
    the two attributes the constructor probes.  [task = None] is an
    environment without a [task] attribute; [random = None] a task without a
    [random] attribute; [random_state = None] an environment without a
    [random_state] attribute. *)
Record Task := { random : option object }.

Record Environment := {
  action_spec : nest Specs.Array;
  env_step : nest loc → M TimeStep;
  task : option Task;
  random_state : option object
}.

(** Modelled from the spec: [base.EnvironmentWrapper], whose constructor
    keeps the wrapped environment handle in [_environment]; the wrapper
    references the environment and does not own it. *)
Record ActionNoiseWrapper := {
  _environment : Environment;
  _action_spec : nest Specs.Array;
  _scale : float;
  _random_state : object
}.

(** Attribute reads: a missing attribute raises [AttributeError]. *)
Definition getattr_random (t : Task) : M object :=
  match random t with
  | Some r => mret r
  | None => raise (AttributeError "random")
  end.

Definition getattr_random_state (e : Environment) : M object :=
  match random_state e with
  | Some r => mret r
  | None => raise (AttributeError "random_state")
  end.

(** [try: body except AttributeError: handler]. *)
Definition try_except_AttributeError {A} (body handler : M A) : M A := λ h,
  match body h with
  | (Raised (AttributeError _), h') => handler h'
  | r => r
  end.

Definition __init__ (environment : Environment) (scale : float)
    (random_state : object) (entropy : mt_state) : M ActionNoiseWrapper :=
  if ltb scale zero then raise (ValueError "scale must be non-negative.")
  else
    rs ← match random_state with
         | PyNone =>
             match task environment with
             | None => RandomState None entropy
             | Some t =>
                 try_except_AttributeError (getattr_random t)
                   (try_except_AttributeError
                      (getattr_random_state environment)
                      (RandomState None entropy))
             end
         | _ =>
             if isinstance_int random_state then
               match random_state with
               | PyInt n => RandomState (Some n) entropy
               | _ => mret random_state
               end
             else mret random_state
         end;
    if isinstance_RandomState rs then
      mret {| _environment := environment;
              _action_spec := action_spec environment;
              _scale := scale;
              _random_state := rs |}
    else raise AssertionError.

Definition step (self : ActionNoiseWrapper) (action : nest loc) : M TimeStep :=
  action ← (if ltb zero (_scale self) then
              _corrupt_nested_action action (_action_spec self)
                (_scale self) (_random_state self)
            else mret action);
  env_step (_environment self) action.

(** The first statement of [step]: the action that is handed to the wrapped
    environment. *)
Definition delivered_action (self : ActionNoiseWrapper) (action : nest loc)
  : M (nest loc) :=
  if ltb zero (_scale self) then
    _corrupt_nested_action action (_action_spec self)
      (_scale self) (_random_state self)
  else mret action.

(** The corruption pipeline on a sequence of actions: for each action, how
    the corruption ended and the contents of all arrays right after it. *)
Fixpoint corrupted_actions (self : ActionNoiseWrapper)
    (actions : list (nest loc)) (h : heap)
  : list (outcome (nest loc) * gmap loc ndarray) :=
  match actions with
  | [] => []
  | action :: actions' =>
      let '(o, h') := delivered_action self action h in
      (o, arrays h') :: corrupted_actions self actions' h'
  end.

End Wrapper.

#[export] Existing Instance M_ret.
#[export] Existing Instance M_bind.

Arguments Heap {mt_state} arrays generators draws.
Arguments arrays {mt_state} _.
Arguments generators {mt_state} _.
Arguments draws {mt_state} _.
Arguments Build_Environment {mt_state TimeStep}.
Arguments action_spec {mt_state TimeStep} _.
Arguments env_step {mt_state TimeStep} _ _ _.
Arguments task {mt_state TimeStep} _.
Arguments random_state {mt_state TimeStep} _.
Arguments _environment {mt_state TimeStep} _.
Arguments _action_spec {mt_state TimeStep} _.
Arguments _scale {mt_state TimeStep} _.
Arguments _random_state {mt_state TimeStep} _.
Arguments raise {mt_state A} e h.
Arguments lift {mt_state A} o h.
Arguments mapM {mt_state A B} f l h.
Arguments getattr_random {mt_state} t h.
Arguments getattr_random_state {mt_state TimeStep} e h.
Arguments try_except_AttributeError {mt_state A} body handler h.
Arguments get_array {mt_state} a h.
Arguments set_array {mt_state} a v h.
Arguments RandomState {mt_state} legacy_seeding seed entropy h.
Arguments draw {mt_state} legacy_gauss scale s.
Arguments normal {mt_state} legacy_gauss random_state scale h.
Arguments iadd {mt_state} action noise h.
Arguments clip_out {mt_state} action minimum maximum h.
Arguments map_structure {mt_state A B C} func s1 s2 h.
Arguments _corrupt_action {mt_state} legacy_gauss scale random_state action spec h.
Arguments _corrupt_nested_action {mt_state} legacy_gauss
  nested_action nested_spec scale random_state h.
Arguments __init__ {mt_state} legacy_seeding {TimeStep}
  environment scale random_state entropy h.
Arguments step {mt_state} legacy_gauss {TimeStep} self action h.
Arguments delivered_action {mt_state} legacy_gauss {TimeStep} self action h.
Arguments corrupted_actions {mt_state} legacy_gauss {TimeStep} self actions h.

End ActionNoise.

(** ** Conditions and policies the properties are stated with *)

Module Contract.
Import F64 Np Py Tree Specs ActionNoise.

(** Where the spec's resolution policy takes the random source from. *)
Inductive source :=
| NewSeeded (seed : Z)
| NewUnseeded
| Found (o : object).

(** The resolution policy in the spec's order: an integer seed, a
    ready-made instance, and otherwise the probes of the environment. *)
Definition resolution_policy {mt_state TimeStep}
    (environment : Environment mt_state TimeStep) (supplied : object)
  : source :=
  match supplied with
  | PyInt seed => NewSeeded seed
  | PyRandomState r => Found (PyRandomState r)
  | PyObject repr => Found (PyObject repr)
  | PyNone =>
      match task environment with
      | None => NewUnseeded
      | Some t =>
          match random t with
          | Some o => Found o
          | None =>
              match random_state environment with
              | Some o => Found o
              | None => NewUnseeded
              end
          end
      end
  end.

(** [(minimum <= maximum).all()]. *)
Definition bounds_ordered (minimum maximum : contents) : bool :=
  match broadcast2 leb (as_float minimum) (as_float maximum) with
  | Some bs => forallb id bs
  | None => false
  end.

(** Element [i] of a bound broadcast to [n] elements. *)
Definition bound (b : contents) (n i : nat) : option float :=
  l ← broadcast_to (as_float b) n; l !! i.

(** The bound [b] broadcasts to the shape of the array [a]. *)
Definition fits (b a : contents) : bool :=
  is_scalar b
  || negb (is_scalar a) && bool_decide (size b = size a ∨ size b = 1).

(** [normal] accepts the standard deviations computed from the bounds. *)
Definition stddev_accepted (scale : float) (minimum maximum : contents) : bool :=
  match subtract maximum minimum with
  | Some range => negb (negative_scale (as_float (scalar_multiply scale range)))
  | None => false
  end.

(** What a leaf of the action must be for its corruption to go through:
    under a bounded spec, a writeable float64 array to whose shape the
    bounds broadcast, with standard deviations [normal] accepts.  Nothing is
    asked of a leaf under an unbounded spec. *)
Definition leaf_ready (scale : float) (a : option ndarray) (spec : Specs.Array)
  : bool :=
  match spec with
  | MkArray _ _ => true
  | BoundedArray _ _ minimum maximum =>
      match a with
      | Some (NdArray c w) =>
          w && bool_decide (dtype_of c = float64)
          && fits minimum c && fits maximum c
          && stddev_accepted scale minimum maximum
      | None => false
      end
  end.

Definition action_ready (scale : float) (arrs : gmap loc ndarray)
    (action : nest loc) (spec : nest Specs.Array) : bool :=
  forallb (λ ls, leaf_ready scale (arrs !! ls.1) ls.2)
    (zip (flatten action) (flatten spec)).

(** The invariant of dm_env's bounded specs: minimum <= maximum. *)
Definition valid_spec (spec : Specs.Array) : bool :=
  match spec with
  | MkArray _ _ => true
  | BoundedArray _ _ minimum maximum => bounds_ordered minimum maximum
  end.

(** Every element lies between its bounds. *)
Definition clipped (minimum maximum : contents) (ys : list float) : Prop :=
  ∀ j y, ys !! j = Some y →
    ∃ lo hi, bound minimum (length ys) j = Some lo ∧
             bound maximum (length ys) j = Some hi ∧
             within lo hi y = true.

(** Every element that is not NaN lies between its bounds. *)
Definition clipped_or_nan (minimum maximum : contents) (ys : list float) : Prop :=
  ∀ j y, ys !! j = Some y → isnan y = false →
    ∃ lo hi, bound minimum (length ys) j = Some lo ∧
             bound maximum (length ys) j = Some hi ∧
             within lo hi y = true.

(** What the element [y] of a clipped array is when the element clipped was
    [v] and its bounds [lo] and [hi], whichever kernel ran. *)
Definition clip_of (v lo hi y : float) : Prop :=
  y = npy_clip v lo hi ∨ y = npy_clip_const lo hi v.

(** The elements of [ys] are NaN exactly where those of [vs] are. *)
Definition nan_alike (vs ys : list float) : Prop :=
  length ys = length vs ∧
  ∀ j v y, vs !! j = Some v → ys !! j = Some y → isnan y = isnan v.

(** The dtype, the shape and the writeable flag of what a reference points
    to. *)
Definition shape_of (a : option ndarray)
  : option (dtype * list nat * bool) :=
  (λ v, (dtype_of (contents_of v), Np.shape (contents_of v), writeable v)) <$> a.

(** Two heaps that hold the same arrays and in which the generator at [r1]
    of the first and the generator at [r2] of the second are in the same
    state. *)
Definition agree {mt_state} (r1 r2 : loc) (h1 h2 : heap mt_state) : Prop :=
  arrays h1 = arrays h2 ∧ generators h1 !! r1 = generators h2 !! r2.

(** Two computations that, from agreeing heaps, end the same way in
    agreeing heaps. *)
Definition related {mt_state A} (r1 r2 : loc) (m1 m2 : M mt_state A) : Prop :=
  ∀ h1 h2, agree r1 r2 h1 h2 →
    (m1 h1).1 = (m2 h2).1 ∧ agree r1 r2 (m1 h1).2 (m2 h2).2.

(** A computation that writes to no array but the one at [a]. *)
Definition writes_only {mt_state A} (a : loc) (m : M mt_state A) : Prop :=
  ∀ h l, l ≠ a → arrays (m h).2 !! l = arrays h !! l.

(** A computation that changes the shape and the dtype of no array. *)
Definition keeps_shapes {mt_state A} (m : M mt_state A) : Prop :=
  ∀ h l, shape_of (arrays (m h).2 !! l) = shape_of (arrays h !! l).

(** A computation that changes the state of no generator but the one at
    [r]. *)
Definition draws_only {mt_state A} (r : loc) (m : M mt_state A) : Prop :=
  ∀ h r', r' ≠ r → generators (m h).2 !! r' = generators h !! r'.

(** The spec is not a bounded range. *)
Definition unbounded (spec : Specs.Array) : bool :=
  match spec with MkArray _ _ => true | BoundedArray _ _ _ _ => false end.

(** The standard deviations computed for a leaf, [scale * (maximum -
    minimum)]: one for each element of the broadcast bounds, none under an
    unbounded spec. *)
Definition leaf_stddev (scale : float) (spec : Specs.Array) : list float :=
  match spec with
  | MkArray _ _ => []
  | BoundedArray _ _ minimum maximum =>
      match subtract maximum minimum with
      | Some range => as_float (scalar_multiply scale range)
      | None => []
      end
  end.

(** The standard deviations of a nested spec, in flattening order. *)
Definition action_stddev (scale : float) (spec : nest Specs.Array)
  : list float :=
  concat (leaf_stddev scale <$> flatten spec).

(** The state the generator is in when the corruption reaches leaf [i]:
    the one the samples of the leaves before it, drawn in flattening order
    from the state [s], leave. *)
Definition state_before {mt_state} (legacy_gauss : mt_state → float * mt_state)
    (scale : float) (spec : list Specs.Array) (i : nat) (s : mt_state)
  : mt_state :=
  (draw legacy_gauss (concat (leaf_stddev scale <$> take i spec)) s).2.

(** The noise of a leaf, [normal(scale=scale * (maximum - minimum))], as
    it is drawn from a generator in state [s]. *)
Definition drawn_noise {mt_state} (legacy_gauss : mt_state → float * mt_state)
    (scale : float) (minimum maximum : contents) (s : mt_state)
  : option contents :=
  range ← subtract maximum minimum;
  let noise_stddev := scalar_multiply scale range in
  Some (floats (is_scalar noise_stddev)
          (draw legacy_gauss (as_float noise_stddev) s).1).

(** The elements of [a + noise] for that noise. *)
Definition noisy_sum {mt_state} (legacy_gauss : mt_state → float * mt_state)
    (scale : float) (minimum maximum : contents) (a : contents) (s : mt_state)
  : option (list float) :=
  noise ← drawn_noise legacy_gauss scale minimum maximum s;
  nz ← broadcast_into noise a;
  Some (zip_with add (as_float a) nz).

(** What the spec asks of a corrupted leaf: the elements of
    [clip(a + noise, minimum, maximum)], in an array of the shape of [a]. *)
Definition corrupted {mt_state} (legacy_gauss : mt_state → float * mt_state)
    (scale : float) (minimum maximum : contents) (a : contents) (s : mt_state)
  : option contents :=
  sums ← noisy_sum legacy_gauss scale minimum maximum a s;
  ys ← clip (floats (is_scalar a) sums) minimum maximum;
  Some (floats (is_scalar a) ys).

(** The leaf has the shape and the dtype its spec declares. *)
Definition conforms (a : contents) (spec : Specs.Array) : bool :=
  match spec with
  | MkArray n dt | BoundedArray n dt _ _ =>
      bool_decide (Np.shape a = n) && bool_decide (dtype_of a = dt)
  end.

End Contract.

(** ** Concrete inputs *)

Module Example.
Import F64 Np Py Tree Specs ActionNoise Contract.

Definition half : float := make 1 (-1).
Definition one : float := make 1 0.
Definition eighth : float := make 1 (-3).
Definition minus_one : float := make (-1) 0.

Definition two : float := make 2 0.
Definition three : float := make 3 0.
Definition nine_sixteenths : float := make 9 (-4).
Definition infinity : float := S754_infinity false.
Definition minus_zero : float := S754_zero true.

(** [BoundedArray(shape=(1,), dtype=float64, minimum=[2.], maximum=[3.])]. *)
Definition upper_interval : Specs.Array :=
  BoundedArray [1] float64 (FloatArray [two]) (FloatArray [three]).

(** A small generator in the place of the Mersenne Twister: its state
    counts the samples drawn, and the samples cycle through four values.
    Seeds are accepted in the range numpy accepts. *)
Definition toy_gauss (s : Z) : float * Z :=
  (match (s mod 4)%Z with
   | 0%Z => half
   | 1%Z => make (-5) (-2)
   | 2%Z => make 2 0
   | _ => make (-1) (-3)
   end, (s + 1)%Z).

Definition toy_seeding (n : Z) : option Z :=
  if decide (0 ≤ n < 2 ^ 32)%Z then Some n else None.

(** [BoundedArray(shape=(1,), dtype=float64, minimum=[0.], maximum=[1.])]. *)
Definition unit_interval : Specs.Array :=
  BoundedArray [1] float64 (FloatArray [zero]) (FloatArray [one]).

(** A bounded spec of zero width: [minimum = maximum = [1.]]. *)
Definition point : Specs.Array :=
  BoundedArray [1] float64 (FloatArray [one]) (FloatArray [one]).

(** Bounds that compare equal and differ in the sign of zero:
    [minimum = [0.]], [maximum = [-0.]]. *)
Definition signed_zeros : Specs.Array :=
  BoundedArray [1] float64 (FloatArray [zero]) (FloatArray [minus_zero]).

(** A zero width at minus zero: [minimum = maximum = [-0.]]. *)
Definition minus_zero_point : Specs.Array :=
  BoundedArray [1] float64 (FloatArray [minus_zero]) (FloatArray [minus_zero]).

(** [BoundedArray(shape=(), dtype=float64, minimum=0., maximum=1.)]. *)
Definition scalar_interval : Specs.Array :=
  BoundedArray [] float64 (FloatScalar zero) (FloatScalar one).

(** [BoundedArray(shape=(3,), dtype=float64, minimum=[0.,0.,0.],
    maximum=[1.,1.,1.])]. *)
Definition unit_cube : Specs.Array :=
  BoundedArray [3] float64 (FloatArray [zero; zero; zero])
    (FloatArray [one; one; one]).

(** [BoundedArray(shape=(1,), dtype=int64, minimum=[0], maximum=[3])]. *)
Definition discrete : Specs.Array :=
  BoundedArray [1] int64 (IntArray [0%Z]) (IntArray [3%Z]).

(** An environment without [task] and [random_state] attributes whose
    [step] returns and touches nothing. *)
Definition env_of (spec : nest Specs.Array) : Environment Z unit :=
  {| action_spec := spec;
     env_step := λ _ h, (Returned (), h);
     task := None;
     random_state := None |}.

(** An environment whose task carries the generator at reference 5. *)
Definition suite_env (spec : nest Specs.Array) : Environment Z unit :=
  {| action_spec := spec;
     env_step := λ _ h, (Returned (), h);
     task := Some {| random := Some (PyRandomState 5) |};
     random_state := None |}.

(** The wrapper around [env] that uses the generator at reference [r]. *)
Definition wrapper (env : Environment Z unit) (scale : float) (r : loc)
  : ActionNoiseWrapper Z unit :=
  {| _environment := env;
     _action_spec := action_spec env;
     _scale := scale;
     _random_state := PyRandomState r |}.

(** A wrapper around [env_of spec] that uses the generator at reference 9. *)
Definition wrapper_of (spec : nest Specs.Array) (scale : float)
  : ActionNoiseWrapper Z unit :=
  wrapper (env_of spec) scale 9.

(** A heap with the given array objects at references 1, 2, ... and a
    generator in state 0 at reference 9. *)
Definition heap_with (arrs : list ndarray) : heap Z :=
  Heap (list_to_map (zip (Pos.of_nat <$> seq 1 (length arrs)) arrs))
       {[ 9%positive := 0%Z ]} 0.

(** The same, all arrays writeable. *)
Definition heap_of (arrs : list contents) : heap Z :=
  heap_with (array <$> arrs).

(** An environment whose task has a [random] attribute that is [None], and
    which has a generator of its own at reference 5. *)
Definition probe_env (spec : nest Specs.Array) : Environment Z unit :=
  {| action_spec := spec;
     env_step := λ _ h, (Returned (), h);
     task := Some {| random := Some PyNone |};
     random_state := Some (PyRandomState 5) |}.

(** The spec of an action that is a tuple of two arrays. *)
Definition pair_of_leaves (a b : Specs.Array) : nest Specs.Array :=
  Node KTuple [Leaf a; Leaf b].

(** The same arrays in a heap whose only generator is the one of the
    environment's task, at reference 5. *)
Definition other_heap (arrs : list contents) : heap Z :=
  Heap (list_to_map (zip (Pos.of_nat <$> seq 1 (length arrs)) (array <$> arrs)))
       {[ 5%positive := 3%Z ]} 17.

(** The heap after the construction of a generator in state [s] at [r]. *)
Definition with_generator (h : heap Z) (r : loc) (s : Z) : heap Z :=
  Heap (arrays h) (<[r := s]> (generators h)) (draws h).

End Example.

(** * Properties *)

Import F64 Np Py Tree Specs ActionNoise Contract.

(** ** Binary64 comparisons *)

Section float_facts.
Implicit Types x y z lo hi : float.

Lemma compare_refl x : isnan x = false → SFcompare x x = Some Eq.
Proof.
  destruct x as [s|s| |s m e]; simpl; try done; intros _.
  - by destruct s.
  - destruct s; rewrite Z.compare_refl, Pos.compare_cont_refl; done.
Qed.

Lemma leb_refl x : isnan x = false → leb x x = true.
Proof. intros H. unfold leb, SFleb. by rewrite compare_refl. Qed.

Lemma ltb_leb x y : ltb x y = true → leb x y = true.
Proof. unfold ltb, leb, SFltb, SFleb. by destruct (SFcompare x y) as [[]|]. Qed.

Lemma leb_not_nan x y : leb x y = true → isnan x = false ∧ isnan y = false.
Proof. by destruct x, y. Qed.

Lemma ltb_not_nan x y : ltb x y = true → isnan x = false ∧ isnan y = false.
Proof. by destruct x, y. Qed.

Lemma compare_cont_flip m m' :
  Pos.compare_cont Eq m' m = CompOpp (Pos.compare_cont Eq m m').
Proof. by rewrite Pos.compare_cont_antisym. Qed.

Lemma compare_antisym x y :
  SFcompare y x = CompOpp <$> SFcompare x y.
Proof.
  destruct x as [s|s| |s m e], y as [s'|s'| |s' m' e']; simpl; try done;
    try (by destruct s, s'); try (by destruct s); try (by destruct s').
  destruct s, s'; try done; f_equal;
    rewrite (Z.compare_antisym e e'), (compare_cont_flip m m');
    destruct (e ?= e')%Z; simpl; try done.
Qed.

Lemma compare_total x y :
  isnan x = false → isnan y = false → is_Some (SFcompare x y).
Proof. destruct x, y; simpl; try done; eauto. Qed.

Lemma ltb_asym x y : ltb x y = true → ltb y x = false.
Proof.
  unfold ltb, SFltb. rewrite (compare_antisym x y).
  by destruct (SFcompare x y) as [[]|].
Qed.

Lemma ltb_irrefl x : ltb x x = false.
Proof.
  destruct (ltb x x) eqn:H; [|done]. by rewrite (ltb_asym _ _ H) in H.
Qed.

Lemma leb_not_gt x y : leb x y = true → ltb y x = false.
Proof.
  unfold leb, ltb, SFleb, SFltb. rewrite (compare_antisym x y).
  by destruct (SFcompare x y) as [[]|].
Qed.

Lemma not_ltb_leb x y :
  isnan x = false → isnan y = false → ltb x y = false → leb y x = true.
Proof.
  intros Hx Hy. destruct (compare_total x y Hx Hy) as [c Hc].
  unfold leb, ltb, SFleb, SFltb. rewrite (compare_antisym x y), Hc.
  by destruct c.
Qed.

Lemma eqb_refl x : isnan x = false → eqb x x = true.
Proof. intros H. unfold eqb, SFeqb. by rewrite compare_refl. Qed.

Lemma leb_not_ltb_Eq x y :
  leb x y = true → ltb x y = false → SFcompare x y = Some Eq.
Proof. unfold leb, ltb, SFleb, SFltb. by destruct (SFcompare x y) as [[]|]. Qed.

Lemma compare_Eq_sym x y : SFcompare x y = Some Eq → SFcompare y x = Some Eq.
Proof. intros H. by rewrite (compare_antisym x y), H. Qed.

Lemma compare_Eq_eqb x y : SFcompare x y = Some Eq → eqb x y = true.
Proof. intros H. unfold eqb, SFeqb. by rewrite H. Qed.

Lemma compare_cont_Eq m m' : Pos.compare_cont Eq m m' = (m ?= m')%positive.
Proof. rewrite Pos.compare_cont_spec. by destruct (m ?= m')%positive. Qed.

Ltac order_cases :=
  repeat match goal with
         | |- context [Pos.compare_cont Eq ?a ?b] =>
             rewrite (compare_cont_Eq a b)
         | |- context [(?a ?= ?b)%Z] => destruct (Z.compare_spec a b)
         | |- context [(?a ?= ?b)%positive] => destruct (Pos.compare_spec a b)
         end;
  cbn [CompOpp]; intros; simplify_eq; try done; try lia.

Lemma leb_ltb_trans x y z : leb x y = true → ltb y z = true → ltb x z = true.
Proof.
  unfold leb, ltb, SFleb, SFltb.
  destruct x as [sx|sx| |sx mx ex], y as [sy|sy| |sy my ey],
           z as [sz|sz| |sz mz ez]; simpl; try done;
    try destruct sx; try destruct sy; try destruct sz; simpl; try done;
    order_cases.
Qed.

Lemma compare_Eq_trans x y z :
  SFcompare x y = Some Eq → SFcompare x z = Some Eq → SFcompare y z = Some Eq.
Proof.
  destruct x as [sx|sx| |sx mx ex], y as [sy|sy| |sy my ey],
           z as [sz|sz| |sz mz ez]; simpl; try done;
    try destruct sx; try destruct sy; try destruct sz; simpl; try done;
    order_cases.
Qed.

End float_facts.

(** ** The two clip kernels *)

Section clip_kernels.
Implicit Types x v lo hi c : float.

Lemma npy_clip_within x lo hi :
  isnan x = false → leb lo hi = true → within lo hi (npy_clip x lo hi) = true.
Proof.
  intros Hx Hb. destruct (leb_not_nan _ _ Hb) as [Hlo Hhi].
  unfold npy_clip, npy_max, within. rewrite Hx.
  destruct (ltb lo x) eqn:Hlt.
  - unfold npy_min. rewrite Hx. destruct (ltb x hi) eqn:Hlt'.
    + by rewrite (ltb_leb _ _ Hlt), (ltb_leb _ _ Hlt').
    + by rewrite Hb, leb_refl.
  - unfold npy_min. rewrite Hlo. destruct (ltb lo hi) eqn:Hlt'.
    + by rewrite leb_refl, Hb.
    + by rewrite Hb, leb_refl.
Qed.

Lemma npy_clip_isnan x lo hi :
  leb lo hi = true → isnan (npy_clip x lo hi) = isnan x.
Proof.
  intros Hb. destruct (leb_not_nan _ _ Hb) as [Hlo Hhi].
  unfold npy_clip, npy_max, npy_min.
  destruct (isnan x) eqn:Hx; [by rewrite Hx|].
  destruct (ltb lo x); rewrite ?Hx, ?Hlo; by destruct (ltb _ hi).
Qed.

Lemma npy_clip_point x c : isnan x = false → isnan c = false → npy_clip x c c = c.
Proof.
  intros Hx Hc. unfold npy_clip, npy_max, npy_min. rewrite Hx.
  destruct (ltb c x) eqn:Hlt.
  - by rewrite Hx, (ltb_asym _ _ Hlt).
  - by rewrite Hc, ltb_irrefl.
Qed.

Lemma npy_clip_inside v lo hi :
  within lo hi v = true → eqb (npy_clip v lo hi) v = true.
Proof.
  unfold within. intros [Hl Hu]%andb_true_iff.
  destruct (leb_not_nan _ _ Hl) as [Hlo Hv].
  destruct (leb_not_nan _ _ Hu) as [_ Hhi].
  unfold npy_clip, npy_max, npy_min. rewrite Hv.
  destruct (ltb lo v) eqn:Hlt.
  - rewrite Hv. destruct (ltb v hi) eqn:Hlt'; [by apply eqb_refl|].
    apply compare_Eq_eqb, compare_Eq_sym. by apply leb_not_ltb_Eq.
  - pose proof (leb_not_ltb_Eq _ _ Hl Hlt) as Hlv.
    rewrite Hlo. destruct (ltb lo hi) eqn:Hlt'; [by apply compare_Eq_eqb|].
    apply compare_Eq_eqb, compare_Eq_sym.
    apply (compare_Eq_trans lo v hi Hlv). apply leb_not_ltb_Eq; [|done].
    unfold leb, SFleb. unfold leb, SFleb in Hu.
    destruct (SFcompare v hi) as [[]|] eqn:Hc; try done.
    + by rewrite (compare_Eq_trans v lo hi (compare_Eq_sym _ _ Hlv) Hc).
    + assert (Hvh : ltb v hi = true) by (unfold ltb, SFltb; by rewrite Hc).
      by rewrite (leb_ltb_trans lo v hi Hl Hvh) in Hlt'.
Qed.

Lemma npy_clip_below v lo hi :
  leb lo hi = true → ltb v lo = true → eqb (npy_clip v lo hi) lo = true.
Proof.
  intros Hb Hlt. destruct (leb_not_nan _ _ Hb) as [Hlo Hhi].
  assert (Hv : isnan v = false) by by destruct v.
  unfold npy_clip, npy_max, npy_min. rewrite Hv, (ltb_asym _ _ Hlt), Hlo.
  destruct (ltb lo hi) eqn:Hlt'; [by apply eqb_refl|].
  apply compare_Eq_eqb, compare_Eq_sym. by apply leb_not_ltb_Eq.
Qed.

Lemma npy_clip_above v lo hi :
  leb lo hi = true → ltb hi v = true → npy_clip v lo hi = hi.
Proof.
  intros Hb Hlt. destruct (leb_not_nan _ _ Hb) as [Hlo Hhi].
  assert (Hv : isnan v = false) by by destruct hi, v.
  unfold npy_clip, npy_max, npy_min.
  rewrite Hv, (leb_ltb_trans lo hi v Hb Hlt), Hv. by rewrite (ltb_asym _ _ Hlt).
Qed.

(** The kernel for constant bounds, when the bounds are ordered. *)
Lemma npy_clip_const_ordered lo hi x :
  leb lo hi = true →
  npy_clip_const lo hi x
  = if ltb x lo then lo else if ltb hi x then hi else x.
Proof.
  intros Hb. destruct (leb_not_nan _ _ Hb) as [Hlo Hhi].
  unfold npy_clip_const. rewrite Hlo, Hhi.
  destruct (ltb x lo); [|done]. by rewrite (leb_not_gt _ _ Hb).
Qed.

Lemma npy_clip_const_isnan lo hi x :
  leb lo hi = true → isnan (npy_clip_const lo hi x) = isnan x.
Proof.
  intros Hb. destruct (leb_not_nan _ _ Hb) as [Hlo Hhi].
  rewrite npy_clip_const_ordered by done.
  destruct (ltb x lo) eqn:H1; [by destruct (ltb_not_nan _ _ H1) as [-> _]|].
  destruct (ltb hi x) eqn:H2; [by destruct (ltb_not_nan _ _ H2) as [_ ->]|].
  done.
Qed.

Lemma npy_clip_const_within lo hi x :
  isnan x = false → leb lo hi = true →
  within lo hi (npy_clip_const lo hi x) = true.
Proof.
  intros Hx Hb. destruct (leb_not_nan _ _ Hb) as [Hlo Hhi].
  rewrite npy_clip_const_ordered by done. unfold within.
  destruct (ltb x lo) eqn:H1; [by rewrite leb_refl, Hb|].
  destruct (ltb hi x) eqn:H2; [by rewrite Hb, leb_refl|].
  by rewrite !not_ltb_leb.
Qed.

Lemma npy_clip_const_inside lo hi v :
  within lo hi v = true → npy_clip_const lo hi v = v.
Proof.
  unfold within. intros [Hl Hu]%andb_true_iff.
  destruct (leb_not_nan _ _ Hl) as [Hlo Hv].
  destruct (leb_not_nan _ _ Hu) as [_ Hhi].
  unfold npy_clip_const. rewrite Hlo, Hhi, (leb_not_gt _ _ Hl).
  by rewrite (leb_not_gt _ _ Hu).
Qed.

Lemma npy_clip_const_below lo hi v :
  leb lo hi = true → ltb v lo = true → npy_clip_const lo hi v = lo.
Proof.
  intros Hb Hlt. rewrite npy_clip_const_ordered by done. by rewrite Hlt.
Qed.

Lemma npy_clip_const_above lo hi v :
  leb lo hi = true → ltb hi v = true → npy_clip_const lo hi v = hi.
Proof.
  intros Hb Hlt. rewrite npy_clip_const_ordered by done.
  by rewrite (ltb_asym _ _ (leb_ltb_trans _ _ _ Hb Hlt)), Hlt.
Qed.

(** Under bounds of zero width the kernel for constant bounds gives a value
    that compares equal to the bound: the bound itself, or the input when
    it already compares equal to it. *)
Lemma npy_clip_const_point c v :
  isnan v = false → isnan c = false →
  eqb (npy_clip_const c c v) c = true ∧
  (npy_clip_const c c v = c ∨ npy_clip_const c c v = v).
Proof.
  intros Hv Hc. rewrite npy_clip_const_ordered by by apply leb_refl.
  destruct (ltb v c) eqn:H1; [split; [by apply eqb_refl|by left]|].
  destruct (ltb c v) eqn:H2; [split; [by apply eqb_refl|by left]|].
  split; [|by right]. apply compare_Eq_eqb, leb_not_ltb_Eq; [|done].
  by apply not_ltb_leb.
Qed.

Lemma clip_of_isnan v lo hi y :
  leb lo hi = true → clip_of v lo hi y → isnan y = isnan v.
Proof.
  intros Hb [-> | ->]; [by apply npy_clip_isnan|by apply npy_clip_const_isnan].
Qed.

Lemma clip_of_within v lo hi y :
  leb lo hi = true → clip_of v lo hi y → isnan v = false →
  within lo hi y = true.
Proof.
  intros Hb [-> | ->] Hv;
    [by apply npy_clip_within|by apply npy_clip_const_within].
Qed.

Lemma clip_of_inside v lo hi y :
  clip_of v lo hi y → within lo hi v = true → eqb y v = true.
Proof.
  intros [-> | ->] Hw; [by apply npy_clip_inside|].
  rewrite npy_clip_const_inside by done. apply eqb_refl.
  unfold within in Hw. apply andb_true_iff in Hw as [Hl _].
  by destruct (leb_not_nan _ _ Hl).
Qed.

Lemma clip_of_below v lo hi y :
  leb lo hi = true → clip_of v lo hi y → ltb v lo = true → eqb y lo = true.
Proof.
  intros Hb [-> | ->] Hlt; [by apply npy_clip_below|].
  rewrite npy_clip_const_below by done. apply eqb_refl.
  by destruct (leb_not_nan _ _ Hb).
Qed.

Lemma clip_of_above v lo hi y :
  leb lo hi = true → clip_of v lo hi y → ltb hi v = true → y = hi.
Proof.
  intros Hb [-> | ->] Hlt;
    [by apply npy_clip_above|by apply npy_clip_const_above].
Qed.

Lemma clip_of_point v c y :
  isnan v = false → isnan c = false → clip_of v c c y → eqb y c = true.
Proof.
  intros Hv Hc [-> | ->].
  - rewrite npy_clip_point by done. by apply eqb_refl.
  - by apply npy_clip_const_point.
Qed.

End clip_kernels.

(** ** Arithmetic with a standard deviation of zero *)

Section zero_noise.
Implicit Types x g s : float.

Lemma sub_diag x : isfinite x = true → sub x x = zero.
Proof.
  destruct x as [[]|[]| |s m e]; try done; intros _.
  unfold sub, SFsub. by rewrite Z.sub_diag.
Qed.

Lemma mul_zero_r s : isfinite s = true → ltb zero s = true → mul s zero = zero.
Proof. by destruct s as [[]|[]| |[] m e]. Qed.

Lemma normal_sample_zero g : isfinite g = true → normal_sample zero g = zero.
Proof. by destruct g as [[]|[]| |[] m e]. Qed.

Lemma add_zero_isnan x : isnan (add x zero) = isnan x.
Proof. by destruct x as [[]|[]| |[] m e]. Qed.

Lemma add_nan_l y : add S754_nan y = S754_nan.
Proof. done. Qed.
End zero_noise.
(** ** Broadcasting *)

Section broadcasting.
Context {A : Type}.
Implicit Types l : list A.

Lemma broadcast_to_length l n l' : broadcast_to l n = Some l' → length l' = n.
Proof.
  unfold broadcast_to. case_decide; [naive_solver|].
  destruct l as [|x [|]]; try done. intros [= <-]. by rewrite length_replicate.
Qed.

Lemma broadcast_to_same l : broadcast_to l (length l) = Some l.
Proof. unfold broadcast_to. by case_decide. Qed.

Lemma broadcast_to_is_Some l n :
  length l = n ∨ length l = 1 → is_Some (broadcast_to l n).
Proof.
  unfold broadcast_to. intros [H|H]; case_decide; try done.
  by destruct l as [|x [|]].
Qed.

Lemma broadcast_to_Some_inv l n l' :
  broadcast_to l n = Some l' → length l = n ∨ length l = 1.
Proof.
  unfold broadcast_to. case_decide; [by left|].
  destruct l as [|x [|]]; try done. by right.
Qed.

Lemma broadcast_to_lookup l n l' i x :
  broadcast_to l n = Some l' → l' !! i = Some x →
  l !! i = Some x ∨ (l = [x] ∧ i < n).
Proof.
  unfold broadcast_to. case_decide; [naive_solver|].
  destruct l as [|y [|]]; try done. intros [= <-].
  intros [-> ?]%lookup_replicate. by right.
Qed.
Lemma broadcast_to_elem l n l' j x :
  broadcast_to l n = Some l' → j < n →
  l !! j = Some x ∨ l = [x] → l' !! j = Some x.
Proof.
  unfold broadcast_to. case_decide as Hn.
  - intros [= <-] Hj [H| ->]; [done|]. simpl in *. by replace j with 0 by lia.
  - destruct l as [|y [|]]; try done. intros [= <-] Hj H.
    apply lookup_replicate. split; [|done].
    destruct H as [H|[= ->]]; [|done]. by destruct j; simplify_eq/=.
Qed.

End broadcasting.

Section broadcasting2.
Context {A B C : Type} (f : A → B → C).

Lemma broadcast2_elem (a : list A) (b : list B) cs j x y :
  broadcast2 f a b = Some cs →
  a !! j = Some x ∨ a = [x] →
  b !! j = Some y ∨ b = [y] →
  f x y ∈ cs.
Proof.
  unfold broadcast2. intros H Ha Hb.
  destruct (broadcast_shapes (length a) (length b)) as [m|] eqn:Hm; [|done].
  simpl in H.
  destruct (broadcast_to a m) as [a'|] eqn:Ha'; [|done]. simpl in H.
  destruct (broadcast_to b m) as [b'|] eqn:Hb'; [|done]. simpl in H.
  injection H as <-.
  assert (∃ k, k < m ∧ (a !! k = Some x ∨ a = [x]) ∧ (b !! k = Some y ∨ b = [y]))
    as (k & Hk & Hak & Hbk).
  { unfold broadcast_shapes in Hm.
    destruct Ha as [Ha| ->], Hb as [Hb| ->].
    - pose proof (lookup_lt_Some _ _ _ Ha). pose proof (lookup_lt_Some _ _ _ Hb).
      exists j. repeat case_decide; simplify_eq; eauto with lia.
    - pose proof (lookup_lt_Some _ _ _ Ha).
      exists j. simpl in *. repeat case_decide; simplify_eq; eauto with lia.
    - pose proof (lookup_lt_Some _ _ _ Hb).
      exists j. simpl in *. repeat case_decide; simplify_eq; eauto with lia.
    - exists 0. simpl in *. repeat case_decide; simplify_eq; eauto with lia. }
  apply list_elem_of_lookup. exists k.
  rewrite lookup_zip_with.
  rewrite (broadcast_to_elem _ _ _ _ _ Ha' Hk Hak). simpl.
  by rewrite (broadcast_to_elem _ _ _ _ _ Hb' Hk Hbk).
Qed.
End broadcasting2.

Lemma bounds_ordered_at minimum maximum n i lo hi :
  bounds_ordered minimum maximum = true →
  bound minimum n i = Some lo → bound maximum n i = Some hi →
  leb lo hi = true.
Proof.
  unfold bounds_ordered, bound. intros Hord Hlo Hhi.
  destruct (broadcast2 leb _ _) as [bs|] eqn:Hbs; [|done].
  destruct (broadcast_to (as_float minimum) n) as [los|] eqn:Hlos; [|done].
  destruct (broadcast_to (as_float maximum) n) as [his|] eqn:Hhis; [|done].
  simpl in *.
  assert (leb lo hi ∈ bs) as Hin.
  { eapply (broadcast2_elem leb _ _ _ i); [done| |].
    - destruct (broadcast_to_lookup _ _ _ _ _ Hlos Hlo) as [?|[? ?]]; eauto.
    - destruct (broadcast_to_lookup _ _ _ _ _ Hhis Hhi) as [?|[? ?]]; eauto. }
  apply Is_true_true. apply Is_true_true_2 in Hord.
  rewrite forallb_True, Forall_forall in Hord. by apply (Hord _ Hin).
Qed.

Lemma broadcast2_length {A B C} (f : A → B → C) a b cs :
  broadcast2 f a b = Some cs →
  broadcast_shapes (length a) (length b) = Some (length cs).
Proof.
  unfold broadcast2.
  destruct (broadcast_shapes (length a) (length b)) as [m|]; [|done]. simpl.
  destruct (broadcast_to a m) as [a'|] eqn:Ha; [|done]. simpl.
  destruct (broadcast_to b m) as [b'|] eqn:Hb; [|done]. simpl.
  intros [= <-]. apply broadcast_to_length in Ha, Hb.
  rewrite length_zip_with. f_equal. lia.
Qed.

Lemma forallb_agree {A} (f g : A → bool) (l : list A) :
  (∀ x, f x = g x) → forallb f l = forallb g l.
Proof. intros H. induction l as [|x l IH]; simpl; [done|]. by rewrite H, IH. Qed.

(** ** Arrays *)

Section arrays.
Implicit Types (a b c : contents) (d : list float).

Lemma as_float_length c : length (as_float c) = size c.
Proof. destruct c; simpl; try done. by rewrite length_fmap. Qed.

Lemma as_int_length c xs : as_int c = Some xs → length xs = size c.
Proof. destruct c; simpl; intros [= <-]; done. Qed.

Lemma as_int_as_float c xs : as_int c = Some xs → as_float c = of_int <$> xs.
Proof. destruct c; simpl; intros [= <-]; done. Qed.

Lemma as_int_dtype c : is_Some (as_int c) ↔ dtype_of c = int64.
Proof. destruct c; simpl; split; intros H; try done; by inversion H. Qed.

Lemma floats_as_float sc d : as_float (floats sc d) = d.
Proof. by destruct sc, d as [|x [|]]. Qed.

Lemma floats_size sc d : size (floats sc d) = length d.
Proof. by destruct sc, d as [|x [|]]. Qed.

Lemma floats_dtype sc d : dtype_of (floats sc d) = float64.
Proof. by destruct sc, d as [|x [|]]. Qed.

Lemma floats_is_scalar sc d :
  is_scalar (floats sc d) = sc && bool_decide (length d = 1).
Proof. by destruct sc, d as [|x [|]]. Qed.

Lemma ints_size sc (d : list Z) : size (ints sc d) = length d.
Proof. by destruct sc, d as [|x [|]]. Qed.

Lemma ints_dtype sc (d : list Z) : dtype_of (ints sc d) = int64.
Proof. by destruct sc, d as [|x [|]]. Qed.

Lemma ints_is_scalar sc (d : list Z) :
  is_scalar (ints sc d) = sc && bool_decide (length d = 1).
Proof. by destruct sc, d as [|x [|]]. Qed.

Lemma ints_as_float sc (d : list Z) : as_float (ints sc d) = of_int <$> d.
Proof. by destruct sc, d as [|x [|]]. Qed.

Lemma scalar_size c : is_scalar c = true → size c = 1.
Proof. by destruct c. Qed.

(** The shape is the rank and the number of elements. *)
Lemma shape_eq c c' :
  is_scalar c = is_scalar c' → size c = size c' → Np.shape c = Np.shape c'.
Proof. destruct c, c'; simpl; try done; by intros _ ->. Qed.

Lemma shape_eq_inv c c' :
  Np.shape c = Np.shape c' → is_scalar c = is_scalar c' ∧ size c = size c'.
Proof. destruct c, c'; simpl; try done; by intros [= ->]. Qed.

(** An array of floats made in the shape of [c]. *)
Lemma floats_like_is_scalar c d :
  length d = size c → is_scalar (floats (is_scalar c) d) = is_scalar c.
Proof.
  intros Hd. rewrite floats_is_scalar, Hd.
  destruct (is_scalar c) eqn:Hc; [|done]. by rewrite (scalar_size c Hc).
Qed.

Lemma floats_like_shape c d :
  length d = size c → Np.shape (floats (is_scalar c) d) = Np.shape c.
Proof.
  intros Hd. apply shape_eq; [by apply floats_like_is_scalar|].
  by rewrite floats_size.
Qed.

Lemma ints_like_shape c (d : list Z) :
  length d = size c → Np.shape (ints (is_scalar c) d) = Np.shape c.
Proof.
  intros Hd. apply shape_eq; [|by rewrite ints_size].
  rewrite ints_is_scalar, Hd.
  destruct (is_scalar c) eqn:Hc; [|done]. by rewrite (scalar_size c Hc).
Qed.

Lemma subtract_size a b r :
  subtract a b = Some r → broadcast_shapes (size a) (size b) = Some (size r).
Proof.
  unfold subtract.
  destruct (as_int a) as [x|] eqn:Ha; [destruct (as_int b) as [y|] eqn:Hb|];
    intros H; apply fmap_Some in H as (cs & H & ->);
    apply broadcast2_length in H.
  - by rewrite ints_size, <- (as_int_length a x Ha), <- (as_int_length b y Hb).
  - rewrite !as_float_length in H. by rewrite floats_size.
  - rewrite !as_float_length in H. by rewrite floats_size.
Qed.

Lemma subtract_is_scalar a b r :
  subtract a b = Some r → is_scalar r = is_scalar a && is_scalar b.
Proof.
  intros H. pose proof (subtract_size _ _ _ H) as Hs. revert H.
  unfold subtract.
  destruct (as_int a) as [x|]; [destruct (as_int b) as [y|]|];
    intros H; apply fmap_Some in H as (cs & H & ->);
    rewrite ?floats_size, ?ints_size in Hs;
    rewrite ?floats_is_scalar, ?ints_is_scalar;
    (destruct (is_scalar a) eqn:Sa; [|done]);
    (destruct (is_scalar b) eqn:Sb; [|done]);
    rewrite (scalar_size a Sa), (scalar_size b Sb) in Hs;
    injection Hs as <-; done.
Qed.

Lemma scalar_multiply_as_float s c :
  as_float (scalar_multiply s c) = mul s <$> as_float c.
Proof. unfold scalar_multiply. by rewrite floats_as_float. Qed.

Lemma scalar_multiply_size s c : size (scalar_multiply s c) = size c.
Proof.
  unfold scalar_multiply. by rewrite floats_size, length_fmap, as_float_length.
Qed.

Lemma scalar_multiply_is_scalar s c :
  is_scalar (scalar_multiply s c) = is_scalar c.
Proof.
  unfold scalar_multiply. apply floats_like_is_scalar.
  by rewrite length_fmap, as_float_length.
Qed.

Lemma broadcast_into_length src dst l :
  broadcast_into src dst = Some l → length l = size dst.
Proof.
  unfold broadcast_into. case_match; [done|]. apply broadcast_to_length.
Qed.

Lemma fits_broadcast_into b a :
  fits b a = true ↔ is_Some (broadcast_into b a).
Proof.
  unfold fits, broadcast_into.
  destruct (is_scalar b) eqn:Sb, (is_scalar a) eqn:Sa; simpl.
  - split; [intros _|done]. apply broadcast_to_is_Some. right.
    by rewrite as_float_length, (scalar_size b Sb).
  - split; [intros _|done]. apply broadcast_to_is_Some. right.
    by rewrite as_float_length, (scalar_size b Sb).
  - split; [done|]. by intros [? ?].
  - rewrite bool_decide_eq_true, <- as_float_length. split.
    + apply broadcast_to_is_Some.
    + intros [l Hl]. by apply broadcast_to_Some_inv in Hl.
Qed.

(** Broadcasting into an output depends on the shape of the output only. *)
Lemma broadcast_into_like src dst dst' :
  Np.shape dst = Np.shape dst' →
  broadcast_into src dst = broadcast_into src dst'.
Proof.
  intros [Hs Hn]%shape_eq_inv. unfold broadcast_into. by rewrite Hs, Hn.
Qed.

Lemma fits_like b a a' : Np.shape a = Np.shape a' → fits b a = fits b a'.
Proof. intros [Hs Hn]%shape_eq_inv. unfold fits. by rewrite Hs, Hn. Qed.

Lemma bound_broadcast_into b a l i :
  broadcast_into b a = Some l → bound b (size a) i = l !! i.
Proof.
  unfold broadcast_into, bound. case_match; [done|]. by intros ->.
Qed.

Lemma bound_elem b n i x : bound b n i = Some x → x ∈ as_float b.
Proof.
  unfold bound. destruct (broadcast_to (as_float b) n) as [l|] eqn:Hl; [|done].
  simpl. intros Hx.
  destruct (broadcast_to_lookup _ _ _ _ _ Hl Hx) as [H|[-> _]].
  - by eapply list_elem_of_lookup_2.
  - by apply list_elem_of_singleton.
Qed.

End arrays.

(** ** The clip *)

Section clipping.
Implicit Types (a lo hi : contents) (ys : list float).

Lemma zip_with3_lookup {A B C D} (f : A → B → C → D) l k m i d :
  zip_with3 f l k m !! i = Some d →
  ∃ x y z, l !! i = Some x ∧ k !! i = Some y ∧ m !! i = Some z ∧ d = f x y z.
Proof.
  unfold zip_with3. rewrite lookup_zip_with.
  destruct (l !! i) as [x|]; [|done]. simpl.
  rewrite lookup_zip_with.
  destruct (k !! i) as [y|]; [|done]. simpl.
  destruct (m !! i) as [z|]; [|done]. simpl.
  intros [= <-]. by exists x, y, z.
Qed.

Lemma zip_with3_length {A B C D} (f : A → B → C → D) l k m :
  length k = length l → length m = length l →
  length (zip_with3 f l k m) = length l.
Proof.
  intros Hk Hm. unfold zip_with3. rewrite length_zip_with, length_zip. lia.
Qed.

Lemma clip_is_Some a lo hi :
  is_Some (clip a lo hi)
  ↔ is_Some (broadcast_into lo a) ∧ is_Some (broadcast_into hi a).
Proof.
  unfold clip.
  destruct (broadcast_into lo a) as [los|]; simpl;
    [|split; [by intros [? ?]|by intros [[? ?] _]]].
  destruct (broadcast_into hi a) as [his|]; simpl;
    [|split; [by intros [? ?]|by intros [_ [? ?]]]].
  split; eauto.
Qed.

Lemma clip_length a lo hi ys : clip a lo hi = Some ys → length ys = size a.
Proof.
  unfold clip.
  destruct (broadcast_into lo a) as [los|] eqn:Hlo; [|done]. simpl.
  destruct (broadcast_into hi a) as [his|] eqn:Hhi; [|done]. simpl.
  apply broadcast_into_length in Hlo, Hhi.
  destruct (as_float lo) as [|l0 [|]], (as_float hi) as [|u0 [|]];
    intros [= <-]; rewrite ?length_fmap; rewrite ?zip_with3_length;
    rewrite ?as_float_length; done.
Qed.

(** Every element of the clipped array is the clip of the element in its
    place, between the bounds broadcast to its place. *)
Lemma clip_lookup a lo hi ys j y :
  clip a lo hi = Some ys → ys !! j = Some y →
  ∃ v l u, as_float a !! j = Some v ∧
           bound lo (size a) j = Some l ∧ bound hi (size a) j = Some u ∧
           clip_of v l u y.
Proof.
  unfold clip.
  destruct (broadcast_into lo a) as [los|] eqn:Hlo; [|done]. simpl.
  destruct (broadcast_into hi a) as [his|] eqn:Hhi; [|done]. simpl.
  rewrite (bound_broadcast_into _ _ _ j Hlo), (bound_broadcast_into _ _ _ j Hhi).
  assert (Hgen : zip_with3 npy_clip (as_float a) los his !! j = Some y →
    ∃ v l u, as_float a !! j = Some v ∧ los !! j = Some l ∧ his !! j = Some u ∧
             clip_of v l u y).
  { intros (v & l & u & Hv & Hl & Hu & ->)%zip_with3_lookup.
    exists v, l, u. repeat split; try done. by left. }
  unfold broadcast_into in Hlo, Hhi.
  destruct (is_scalar a && negb (is_scalar lo)); [done|].
  destruct (is_scalar a && negb (is_scalar hi)); [done|].
  destruct (as_float lo) as [|l0 [|]] eqn:El, (as_float hi) as [|u0 [|]] eqn:Eu;
    intros [= <-]; try exact Hgen.
  rewrite list_lookup_fmap. destruct (as_float a !! j) as [v|] eqn:Hv; [|done].
  simpl. intros [= <-]. exists v, l0, u0.
  pose proof (lookup_lt_Some _ _ _ Hv) as Hj. rewrite as_float_length in Hj.
  repeat split; [| |by right].
  - eapply broadcast_to_elem; eauto.
  - eapply broadcast_to_elem; eauto.
Qed.

(** When each bound has one element the kernel for constant bounds runs. *)
Lemma clip_const a lo hi l u ys :
  as_float lo = [l] → as_float hi = [u] →
  clip a lo hi = Some ys → ys = npy_clip_const l u <$> as_float a.
Proof.
  unfold clip. intros -> ->.
  destruct (broadcast_into lo a); [|done]. simpl.
  destruct (broadcast_into hi a); [|done]. simpl. by intros [= <-].
Qed.

(** The clip reads the shape and the elements of its first operand. *)
Lemma clip_like a a' lo hi :
  Np.shape a = Np.shape a' → as_float a = as_float a' →
  clip a lo hi = clip a' lo hi.
Proof.
  intros Hs Ha. unfold clip.
  by rewrite (broadcast_into_like lo a a' Hs), (broadcast_into_like hi a a' Hs), Ha.
Qed.

Lemma clip_within a lo hi ys :
  bounds_ordered lo hi = true → clip a lo hi = Some ys →
  clipped_or_nan lo hi ys ∧ nan_alike (as_float a) ys.
Proof.
  intros Hord Hc. pose proof (clip_length _ _ _ _ Hc) as Hlen.
  split; [|split; [by rewrite as_float_length|]].
  - intros j y Hy Hnan. rewrite Hlen.
    destruct (clip_lookup _ _ _ _ _ _ Hc Hy) as (v & l & u & Hv & Hl & Hu & Hk).
    pose proof (bounds_ordered_at _ _ _ _ _ _ Hord Hl Hu) as Hlu.
    exists l, u. repeat split; [done..|].
    apply (clip_of_within v); [done..|].
    by rewrite <- (clip_of_isnan v l u y Hlu Hk).
  - intros j v y Hv Hy.
    destruct (clip_lookup _ _ _ _ _ _ Hc Hy) as (v' & l & u & Hv' & Hl & Hu & Hk).
    simplify_eq.
    pose proof (bounds_ordered_at _ _ _ _ _ _ Hord Hl Hu) as Hlu.
    by apply (clip_of_isnan v l u).
Qed.

Lemma clip_int_length a lo hi (zs : list Z) :
  clip_int a lo hi = Some zs → length zs = size a.
Proof.
  unfold clip_int.
  destruct (as_int a) as [xs|] eqn:Hxs; [|done]. simpl.
  destruct (broadcast_int_into lo a) as [los|] eqn:Hlo; [|done]. simpl.
  destruct (broadcast_int_into hi a) as [his|] eqn:Hhi; [|done]. simpl.
  intros [= <-]. apply as_int_length in Hxs.
  assert (∀ b l, broadcast_int_into b a = Some l → length l = size a) as Hlen.
  { intros b l. unfold broadcast_int_into. case_match; [done|].
    destruct (as_int b); [|done]. simpl. apply broadcast_to_length. }
  apply Hlen in Hlo, Hhi. rewrite zip_with3_length; lia.
Qed.

End clipping.
(** ** The corruption of one leaf *)

Section leaf.
Context {mt_state : Type} (legacy_gauss : mt_state → float * mt_state).
Implicit Types (h : heap mt_state) (x : ndarray) (c lo hi : contents).

Lemma draw_length scale s : length (draw legacy_gauss scale s).1 = length scale.
Proof.
  revert s. induction scale as [|sc scale IH]; intros s; simpl; [done|].
  destruct (legacy_gauss s) as [g s1]. specialize (IH s1).
  destruct (draw legacy_gauss scale s1). simpl in *. by rewrite IH.
Qed.

Lemma draw_app l1 l2 s :
  draw legacy_gauss (l1 ++ l2) s
  = ((draw legacy_gauss l1 s).1
       ++ (draw legacy_gauss l2 (draw legacy_gauss l1 s).2).1,
     (draw legacy_gauss l2 (draw legacy_gauss l1 s).2).2).
Proof.
  revert s. induction l1 as [|sc l1 IH]; intros s; simpl.
  { by destruct (draw legacy_gauss l2 s). }
  destruct (legacy_gauss s) as [g s1]. rewrite IH.
  destruct (draw legacy_gauss l1 s1) as [n1 s2]. simpl.
  by destruct (draw legacy_gauss l2 s2).
Qed.

Lemma leaf_ready_shape scale a a' spec :
  shape_of a = shape_of a' → leaf_ready scale a spec = leaf_ready scale a' spec.
Proof.
  destruct spec as [|n dt lo hi]; [done|].
  destruct a as [[c w]|], a' as [[c' w']|]; simpl; try done.
  intros [= Hd Hs ->]. by rewrite Hd, (fits_like lo c c' Hs), (fits_like hi c c' Hs).
Qed.

Lemma noisy_sum_length scale lo hi c s sums :
  noisy_sum legacy_gauss scale lo hi c s = Some sums → length sums = size c.
Proof.
  unfold noisy_sum. destruct (drawn_noise _ _ _ _ _) as [noise|]; [|done].
  simpl. destruct (broadcast_into noise c) as [nz|] eqn:Hnz; [|done].
  simpl. intros [= <-]. apply broadcast_into_length in Hnz.
  rewrite length_zip_with, as_float_length. lia.
Qed.

(** The corruption of a leaf that is ready for it: the noise is drawn, the
    sum is written, the clipped sum is written over it. *)
Lemma corrupt_action_bounded h scale r action n dt lo hi x s sums ys :
  arrays h !! action = Some x →
  writeable x = true →
  dtype_of (contents_of x) = float64 →
  generators h !! r = Some s →
  stddev_accepted scale lo hi = true →
  noisy_sum legacy_gauss scale lo hi (contents_of x) s = Some sums →
  clip (floats (is_scalar (contents_of x)) sums) lo hi = Some ys →
  _corrupt_action legacy_gauss scale (PyRandomState r) action
    (BoundedArray n dt lo hi) h
  = (Returned action,
     Heap (<[action := NdArray (floats (is_scalar (contents_of x)) ys) true]>
             (arrays h))
          (<[r := (draw legacy_gauss
                     (leaf_stddev scale (BoundedArray n dt lo hi)) s).2]>
             (generators h))
          (draws h + length (leaf_stddev scale (BoundedArray n dt lo hi)))).
Proof.
  intros Ha Hw Hdt Hr Hsd Hsum Hclip.
  pose proof (noisy_sum_length _ _ _ _ _ _ Hsum) as Hlen.
  unfold stddev_accepted in Hsd. unfold noisy_sum, drawn_noise in Hsum.
  unfold _corrupt_action, leaf_stddev.
  destruct (subtract hi lo) as [range|]; [|done]. simpl in Hsum.
  apply negb_true_iff in Hsd.
  unfold mbind, M_bind, mret, M_ret; simpl. rewrite Hsd, Hr.
  destruct (draw legacy_gauss (as_float (scalar_multiply scale range)) s)
    as [noise s'] eqn:Hd.
  simpl in *. unfold iadd, get_array, mbind, M_bind; simpl.
  rewrite Ha, Hw, Hdt. simpl.
  destruct (broadcast_into _ (contents_of x)) as [nz|]; [|done].
  injection Hsum as Hsum. rewrite Hsum.
  unfold set_array; simpl.
  unfold clip_out, get_array, mbind, M_bind; simpl.
  rewrite lookup_insert_eq. simpl. rewrite floats_dtype, Hclip.
  unfold set_array; simpl.
  rewrite insert_insert_eq, (floats_like_is_scalar _ _ Hlen).
  by rewrite as_float_length.
Qed.

Lemma corrupt_action_unbounded h scale rs action n dt :
  _corrupt_action legacy_gauss scale rs action (MkArray n dt) h
  = (Returned action, h).
Proof. done. Qed.

(** A corruption that returns went through every stage. *)
Lemma corrupt_action_returned h h' scale rs action a n dt lo hi :
  _corrupt_action legacy_gauss scale rs action (BoundedArray n dt lo hi) h
    = (Returned a, h') →
  ∃ r s x sums ys,
    rs = PyRandomState r ∧
    arrays h !! action = Some x ∧
    writeable x = true ∧
    dtype_of (contents_of x) = float64 ∧
    generators h !! r = Some s ∧
    stddev_accepted scale lo hi = true ∧
    noisy_sum legacy_gauss scale lo hi (contents_of x) s = Some sums ∧
    clip (floats (is_scalar (contents_of x)) sums) lo hi = Some ys.
Proof.
  unfold _corrupt_action, stddev_accepted, noisy_sum, drawn_noise.
  destruct (subtract hi lo) as [range|] eqn:Hsub; [|done].
  unfold mbind, M_bind, mret, M_ret; simpl.
  destruct rs as [| |r|]; try done. simpl.
  destruct (negative_scale _) eqn:Hneg; [done|].
  destruct (generators h !! r) as [s|] eqn:Hr; [|done].
  destruct (draw legacy_gauss (as_float (scalar_multiply scale range)) s)
    as [noise s'] eqn:Hd.
  unfold iadd, get_array, mbind, M_bind; simpl.
  destruct (arrays h !! action) as [[c w]|] eqn:Ha; [|done]. simpl.
  destruct w; [|done]. simpl.
  destruct (dtype_of c) eqn:Hdt; [|done].
  destruct (broadcast_into _ c) as [nz|] eqn:Hnz; [|done].
  unfold set_array, clip_out, get_array, mbind, M_bind; simpl.
  rewrite lookup_insert_eq. simpl. rewrite floats_dtype.
  destruct (clip _ lo hi) as [ys|] eqn:Hclip; [|done].
  intros _. exists r, s, (NdArray c true), (zip_with add (as_float c) nz), ys.
  simpl. rewrite Hd. simpl. by rewrite Hnz.
Qed.

Lemma corrupt_action_same h h' scale rs action spec a :
  _corrupt_action legacy_gauss scale rs action spec h = (Returned a, h') →
  a = action.
Proof.
  destruct spec as [n dt|n dt lo hi]; [by intros [= <- _]|].
  intros H. pose proof H as H'.
  apply corrupt_action_returned in H'
    as (r & s & x & sums & ys & -> & Ha & Hw & Hdt & Hr & Hsd & Hsum & Hclip).
  rewrite (corrupt_action_bounded h scale r action n dt lo hi x s sums ys) in H
    by done.
  by injection H.
Qed.

(** The noise of a leaf fits the leaf when the bounds do. *)
Lemma noise_fits scale lo hi c range d :
  fits lo c = true → fits hi c = true →
  subtract hi lo = Some range →
  length d = size range →
  fits (floats (is_scalar (scalar_multiply scale range)) d) c = true.
Proof.
  intros Hlo Hhi Hsub Hd.
  pose proof (subtract_size _ _ _ Hsub) as Hsize.
  pose proof (subtract_is_scalar _ _ _ Hsub) as Hsc.
  unfold fits in *.
  rewrite floats_is_scalar, floats_size, scalar_multiply_is_scalar, Hsc, Hd.
  destruct (is_scalar hi) eqn:Shi, (is_scalar lo) eqn:Slo; simpl in *.
  - rewrite (scalar_size hi Shi), (scalar_size lo Slo) in Hsize.
    injection Hsize as <-. done.
  - apply andb_true_iff in Hlo as [-> Hlo]. simpl.
    apply bool_decide_eq_true in Hlo. apply bool_decide_eq_true.
    rewrite (scalar_size hi Shi) in Hsize. unfold broadcast_shapes in Hsize.
    repeat case_decide; simplify_eq; lia.
  - apply andb_true_iff in Hhi as [-> Hhi]. simpl.
    apply bool_decide_eq_true in Hhi. apply bool_decide_eq_true.
    rewrite (scalar_size lo Slo) in Hsize. unfold broadcast_shapes in Hsize.
    repeat case_decide; simplify_eq; lia.
  - apply andb_true_iff in Hlo as [-> Hlo]. simpl.
    apply andb_true_iff in Hhi as [_ Hhi].
    apply bool_decide_eq_true in Hlo, Hhi. apply bool_decide_eq_true.
    unfold broadcast_shapes in Hsize.
    repeat case_decide; simplify_eq; lia.
Qed.

(** A leaf that is ready has a noisy sum and a clip of it. *)
Lemma leaf_ready_corrupted scale c w n dt lo hi s :
  leaf_ready scale (Some (NdArray c w)) (BoundedArray n dt lo hi) = true →
  w = true ∧ dtype_of c = float64 ∧ stddev_accepted scale lo hi = true ∧
  ∃ sums ys,
    noisy_sum legacy_gauss scale lo hi c s = Some sums ∧
    clip (floats (is_scalar c) sums) lo hi = Some ys.
Proof.
  simpl. intros H.
  apply andb_true_iff in H as [H Hsd].
  apply andb_true_iff in H as [H Hhi].
  apply andb_true_iff in H as [H Hlo].
  apply andb_true_iff in H as [Hw Hdt]. apply bool_decide_eq_true in Hdt.
  repeat split; [done..|].
  unfold stddev_accepted in Hsd. unfold noisy_sum, drawn_noise.
  destruct (subtract hi lo) as [range|] eqn:Hsub; [|done]. simpl.
  destruct (proj1 (fits_broadcast_into _ c)
              (noise_fits scale lo hi c range
                 (draw legacy_gauss (as_float (scalar_multiply scale range)) s).1
                 Hlo Hhi Hsub
                 ltac:(by rewrite draw_length, as_float_length,
                          scalar_multiply_size))) as [nz Hnz].
  rewrite Hnz. simpl.
  assert (Hlen : length (zip_with add (as_float c) nz) = size c).
  { apply broadcast_into_length in Hnz.
    rewrite length_zip_with, as_float_length. lia. }
  destruct (proj2 (clip_is_Some
                     (floats (is_scalar c) (zip_with add (as_float c) nz)) lo hi))
    as [ys Hys].
  { split; apply fits_broadcast_into;
      by rewrite (fits_like _ _ c (floats_like_shape c _ Hlen)). }
  eauto.
Qed.

(** The converse: a corruption returns only on a leaf that is ready. *)
Lemma corrupt_action_returned_ready h h' scale rs action a n dt lo hi :
  _corrupt_action legacy_gauss scale rs action (BoundedArray n dt lo hi) h
    = (Returned a, h') →
  leaf_ready scale (arrays h !! action) (BoundedArray n dt lo hi) = true.
Proof.
  intros (r & s & [c w] & sums & ys & -> & Ha & Hw & Hdt & Hr & Hsd & Hsum & Hclip)
    %corrupt_action_returned.
  simpl in *. rewrite Ha. subst w. simpl. rewrite Hdt, Hsd.
  pose proof (noisy_sum_length _ _ _ _ _ _ Hsum) as Hlen.
  assert (is_Some (clip (floats (is_scalar c) sums) lo hi)) as Hc by eauto.
  apply clip_is_Some in Hc as [Hlo Hhi].
  apply fits_broadcast_into in Hlo, Hhi.
  rewrite (fits_like lo _ c (floats_like_shape c _ Hlen)) in Hlo.
  rewrite (fits_like hi _ c (floats_like_shape c _ Hlen)) in Hhi.
  by rewrite Hlo, Hhi.
Qed.



End leaf.
(** ** Nested structures *)

Section nests.
Context {A B : Type}.

Lemma same_kind k1 k2 :
  same_type k1 k2 = true → same_keys k1 k2 = true → k1 = k2.
Proof.
  destruct k1, k2; simpl; try done.
  intros _ ?%bool_decide_eq_true. by subst.
Qed.

Lemma same_kind_refl k : same_type k k = true ∧ same_keys k k = true.
Proof. destruct k; simpl; split; try done. by apply bool_decide_eq_true. Qed.

Lemma assert_same_structure_None (a : nest A) (b : nest B) :
  assert_same_structure a b = None → congruent a b.
Proof.
  revert b. induction a as [x|k c1 IH] using nest_ind'; intros [y|k2 c2]; simpl;
    try done; [constructor|].
  destruct (same_type k k2) eqn:Ht; [|done]. simpl.
  destruct (same_keys k k2) eqn:Hk; [|done]. simpl.
  rewrite (same_kind _ _ Ht Hk). intros H. constructor.
  clear Ht Hk. revert c2 H.
  induction IH as [|x c1 Hx _ IHc]; intros [|y c2] H; try done.
  destruct (assert_same_structure x y) eqn:Hxy; [done|].
  constructor; [by apply Hx | by apply IHc].
Qed.

Lemma congruent_assert_same_structure (a : nest A) (b : nest B) :
  congruent a b → assert_same_structure a b = None.
Proof.
  revert b. induction a as [x|k c1 IH] using nest_ind'; intros b Hc;
    inversion Hc as [|? ? c2 Hcs]; subst; simpl; [done|].
  destruct (same_kind_refl k) as [-> ->]. simpl.
  clear Hc. revert c2 Hcs.
  induction IH as [|x c1 Hx _ IHc]; intros c2 Hcs;
    inversion Hcs as [|? y ? c2' Hxy Hrest]; subst; [done|].
  rewrite (Hx _ Hxy). by apply IHc.
Qed.

Lemma congruent_flatten_length (a : nest A) (b : nest B) :
  congruent a b → length (flatten a) = length (flatten b).
Proof.
  revert b. induction a as [x|k c1 IH] using nest_ind'; intros b Hc;
    inversion Hc as [|? ? c2 Hcs]; subst; simpl; [done|].
  clear Hc. revert c2 Hcs.
  induction IH as [|x c1 Hx _ IHc]; intros c2 Hcs;
    inversion Hcs as [|? y ? c2' Hxy Hrest]; subst; simpl; [done|].
  rewrite !length_app. by rewrite (Hx _ Hxy), (IHc _ Hrest).
Qed.

Lemma pack_flatten (t : nest A) (rest : list A) :
  pack t (flatten t ++ rest) = Some (t, rest).
Proof.
  revert rest. induction t as [x|k c IH] using nest_ind'; intros rest; simpl;
    [done|].
  enough (Hgo : ∀ rest,
    (fix go (l : list (nest A)) (flat : list A)
       : option (list (nest A) * list A) :=
       match l with
       | [] => Some ([], flat)
       | x :: l' =>
           '(x', flat') ← pack x flat;
           '(l'', flat'') ← go l' flat';
           Some (x' :: l'', flat'')
       end) c (concat (map flatten c) ++ rest) = Some (c, rest)).
  { by rewrite Hgo. }
  induction IH as [|x c Hx _ IHc]; intros rest'; simpl; [done|].
  rewrite <- app_assoc, Hx. simpl. by rewrite IHc.
Qed.

Lemma unflatten_as_flatten (t : nest A) : unflatten_as t (flatten t) = Returned t.
Proof.
  unfold unflatten_as. rewrite decide_True by done.
  pose proof (pack_flatten t []) as H. rewrite app_nil_r in H. by rewrite H.
Qed.

Lemma assert_same_structure_exn (a : nest A) (b : nest B) e :
  assert_same_structure a b = Some e →
  ∃ msg, e = ValueError msg ∨ e = TypeError msg.
Proof.
  revert b. induction a as [x|k c1 IH] using nest_ind'; intros [y|k2 c2]; simpl;
    try done; try (intros [= <-]; eauto).
  destruct (same_type k k2); simpl; [|intros [= <-]; eauto].
  destruct (same_keys k k2); simpl; [|intros [= <-]; eauto].
  revert c2.
  induction IH as [|x c1 Hx _ IHc]; intros [|y c2] H; try done;
    try (injection H as <-; eauto).
  destruct (assert_same_structure x y) eqn:Hxy; [|by eapply IHc].
  injection H as <-. by eapply Hx.
Qed.
End nests.

(** ** Frames *)

Section frames.
Context {mt_state : Type} (legacy_gauss : mt_state → float * mt_state).
Implicit Types (h : heap mt_state).

Lemma writes_only_pure {A} a (m : M mt_state A) :
  (∀ h, arrays (m h).2 = arrays h) → writes_only a m.
Proof. intros H h l _. by rewrite H. Qed.

Lemma writes_only_bind {A B} a (m : M mt_state A) (f : A → M mt_state B) :
  writes_only a m → (∀ x, writes_only a (f x)) → writes_only a (m ≫= f).
Proof.
  intros Hm Hf h l Hl. unfold mbind, M_bind.
  specialize (Hm h l Hl). destruct (m h) as [[x|e] h1]; simpl in *; [|done].
  by rewrite (Hf x h1 l Hl).
Qed.

Lemma writes_only_set_array a v : writes_only a (set_array (mt_state:=mt_state) a v).
Proof. intros h l Hl. unfold set_array. simpl. by rewrite lookup_insert_ne. Qed.

Lemma writes_only_get_array a : writes_only a (get_array (mt_state:=mt_state) a).
Proof. apply writes_only_pure. intros h. unfold get_array. by case_match. Qed.

Lemma writes_only_raise {A} a e : writes_only a (raise (mt_state:=mt_state) (A:=A) e).
Proof. by apply writes_only_pure. Qed.

Lemma writes_only_ret {A} a (x : A) : writes_only a (mret (M:=M mt_state) x).
Proof. by apply writes_only_pure. Qed.

Lemma writes_only_normal a rs scale : writes_only a (normal legacy_gauss rs scale).
Proof.
  apply writes_only_pure. intros h. unfold normal.
  destruct rs; try done. repeat case_match; done.
Qed.

Lemma writes_only_iadd a noise : writes_only a (iadd (mt_state:=mt_state) a noise).
Proof.
  unfold iadd. apply writes_only_bind; [apply writes_only_get_array|].
  intros v. repeat case_match;
    first [apply writes_only_set_array | apply writes_only_raise].
Qed.

Lemma writes_only_clip_out a lo hi :
  writes_only a (clip_out (mt_state:=mt_state) a lo hi).
Proof.
  unfold clip_out. apply writes_only_bind; [apply writes_only_get_array|].
  intros v. repeat case_match;
    first [apply writes_only_set_array | apply writes_only_raise].
Qed.

Lemma writes_only_corrupt_action scale rs a spec :
  writes_only a (_corrupt_action legacy_gauss scale rs a spec).
Proof.
  destruct spec as [n dt|n dt lo hi]; [apply writes_only_ret|].
  unfold _corrupt_action. apply writes_only_bind.
  { case_match; [apply writes_only_ret | apply writes_only_raise]. }
  intros range. apply writes_only_bind; [apply writes_only_normal|].
  intros noise. apply writes_only_bind; [apply writes_only_iadd|].
  intros _. apply writes_only_bind; [apply writes_only_clip_out|].
  intros _. apply writes_only_ret.
Qed.

Lemma keeps_shapes_pure {A} (m : M mt_state A) :
  (∀ h, arrays (m h).2 = arrays h) → keeps_shapes m.
Proof. intros H h l. by rewrite H. Qed.

Lemma keeps_shapes_bind {A B} (m : M mt_state A) (f : A → M mt_state B) :
  keeps_shapes m → (∀ x, keeps_shapes (f x)) → keeps_shapes (m ≫= f).
Proof.
  intros Hm Hf h l. unfold mbind, M_bind.
  specialize (Hm h l). destruct (m h) as [[x|e] h1]; simpl in *; [|done].
  by rewrite (Hf x h1 l).
Qed.

Lemma keeps_shapes_iadd a noise : keeps_shapes (iadd (mt_state:=mt_state) a noise).
Proof.
  intros h l. unfold iadd, get_array, mbind, M_bind.
  destruct (arrays h !! a) as [[c w]|] eqn:Ha; simpl; [|done].
  destruct w; simpl; [|done].
  destruct (dtype_of c) eqn:Hdt; simpl; [|done].
  destruct (broadcast_into noise c) as [nz|] eqn:Hnz; simpl; [|done].
  destruct (decide (l = a)) as [->|Hne]; [|by rewrite lookup_insert_ne].
  rewrite lookup_insert_eq, Ha. simpl. f_equal.
  rewrite floats_dtype, Hdt, floats_like_shape; [done|].
  apply broadcast_into_length in Hnz.
  rewrite length_zip_with, as_float_length. lia.
Qed.

Lemma keeps_shapes_clip_out a lo hi :
  keeps_shapes (clip_out (mt_state:=mt_state) a lo hi).
Proof.
  intros h l. unfold clip_out, get_array, mbind, M_bind.
  destruct (arrays h !! a) as [[c w]|] eqn:Ha; simpl; [|done].
  destruct w; simpl; [|done].
  destruct (dtype_of c) eqn:Hdt; simpl.
  - destruct (clip c lo hi) as [ys|] eqn:Hc; simpl; [|done].
    destruct (decide (l = a)) as [->|Hne]; [|by rewrite lookup_insert_ne].
    rewrite lookup_insert_eq, Ha. simpl. f_equal.
    rewrite floats_dtype, Hdt, floats_like_shape; [done|].
    by apply clip_length in Hc.
  - destruct (as_int lo) as [los|]; simpl; [|done].
    destruct (as_int hi) as [his|]; simpl; [|done].
    destruct (clip_int c lo hi) as [ys|] eqn:Hc; simpl; [|done].
    destruct (decide (l = a)) as [->|Hne]; [|by rewrite lookup_insert_ne].
    rewrite lookup_insert_eq, Ha. simpl. f_equal.
    rewrite ints_dtype, Hdt, ints_like_shape; [done|].
    by apply clip_int_length in Hc.
Qed.

Lemma keeps_shapes_normal rs scale : keeps_shapes (normal legacy_gauss rs scale).
Proof.
  apply keeps_shapes_pure. intros h. unfold normal.
  destruct rs; try done. repeat case_match; done.
Qed.

Lemma keeps_shapes_corrupt_action scale rs a spec :
  keeps_shapes (_corrupt_action legacy_gauss scale rs a spec).
Proof.
  destruct spec as [n dt|n dt lo hi]; [by apply keeps_shapes_pure|].
  unfold _corrupt_action. apply keeps_shapes_bind.
  { case_match; by apply keeps_shapes_pure. }
  intros range. apply keeps_shapes_bind; [apply keeps_shapes_normal|].
  intros noise. apply keeps_shapes_bind; [apply keeps_shapes_iadd|].
  intros _. apply keeps_shapes_bind; [apply keeps_shapes_clip_out|].
  intros _. by apply keeps_shapes_pure.
Qed.

Lemma keeps_shapes_mapM {A B} (f : A → M mt_state B) l :
  (∀ x, keeps_shapes (f x)) → keeps_shapes (mapM f l).
Proof.
  intros Hf. induction l as [|x l IH]; simpl; [by apply keeps_shapes_pure|].
  apply keeps_shapes_bind; [apply Hf|]. intros y.
  apply keeps_shapes_bind; [apply IH|]. intros ys. by apply keeps_shapes_pure.
Qed.

Lemma keeps_shapes_corrupt_nested action spec scale rs :
  keeps_shapes (_corrupt_nested_action legacy_gauss action spec scale rs).
Proof.
  unfold _corrupt_nested_action, map_structure.
  destruct (assert_same_structure action spec); [by apply keeps_shapes_pure|].
  apply keeps_shapes_bind.
  - apply keeps_shapes_mapM. intros [a sp]. apply keeps_shapes_corrupt_action.
  - intros res. by apply keeps_shapes_pure.
Qed.

Lemma draws_only_pure {A} r (m : M mt_state A) :
  (∀ h, generators (m h).2 = generators h) → draws_only r m.
Proof. intros H h r' _. by rewrite H. Qed.

Lemma draws_only_bind {A B} r (m : M mt_state A) (f : A → M mt_state B) :
  draws_only r m → (∀ x, draws_only r (f x)) → draws_only r (m ≫= f).
Proof.
  intros Hm Hf h r' Hr. unfold mbind, M_bind.
  specialize (Hm h r' Hr). destruct (m h) as [[x|e] h1]; simpl in *; [|done].
  by rewrite (Hf x h1 r' Hr).
Qed.

Lemma draws_only_normal r scale :
  draws_only r (normal legacy_gauss (PyRandomState r) scale).
Proof.
  intros h r' Hr. unfold normal. repeat case_match; simpl; try done.
  by rewrite lookup_insert_ne.
Qed.

Lemma draws_only_iadd r a noise : draws_only r (iadd (mt_state:=mt_state) a noise).
Proof.
  apply draws_only_pure. intros h. unfold iadd, get_array, mbind, M_bind.
  destruct (arrays h !! a) as [v|]; simpl; [|done].
  repeat case_match; done.
Qed.

Lemma draws_only_clip_out r a lo hi :
  draws_only r (clip_out (mt_state:=mt_state) a lo hi).
Proof.
  apply draws_only_pure. intros h. unfold clip_out, get_array, mbind, M_bind.
  destruct (arrays h !! a) as [v|]; simpl; [|done].
  repeat case_match; done.
Qed.

Lemma draws_only_corrupt_action r scale a spec :
  draws_only r (_corrupt_action legacy_gauss scale (PyRandomState r) a spec).
Proof.
  destruct spec as [n dt|n dt lo hi]; [by apply draws_only_pure|].
  unfold _corrupt_action. apply draws_only_bind.
  { case_match; by apply draws_only_pure. }
  intros range. apply draws_only_bind; [apply draws_only_normal|].
  intros noise. apply draws_only_bind; [apply draws_only_iadd|].
  intros _. apply draws_only_bind; [apply draws_only_clip_out|].
  intros _. by apply draws_only_pure.
Qed.

Lemma draws_only_mapM {A B} r (f : A → M mt_state B) l :
  (∀ x, draws_only r (f x)) → draws_only r (mapM f l).
Proof.
  intros Hf. induction l as [|x l IH]; simpl; [by apply draws_only_pure|].
  apply draws_only_bind; [apply Hf|]. intros y.
  apply draws_only_bind; [apply IH|]. intros ys. by apply draws_only_pure.
Qed.

End frames.

(** ** The corruption of a nested action *)

Section tree_level.
Context {mt_state : Type} (legacy_gauss : mt_state → float * mt_state).
Implicit Types (h : heap mt_state).

Lemma corrupt_action_ready h scale r s action spec :
  generators h !! r = Some s →
  leaf_ready scale (arrays h !! action) spec = true →
  ∃ h', _corrupt_action legacy_gauss scale (PyRandomState r) action spec h
          = (Returned action, h') ∧
        (∀ l, shape_of (arrays h' !! l) = shape_of (arrays h !! l)) ∧
        generators h' !! r
        = Some (draw legacy_gauss (leaf_stddev scale spec) s).2 ∧
        draws h' = draws h + length (leaf_stddev scale spec).
Proof.
  intros Hr Hready. destruct spec as [n dt|n dt lo hi].
  { exists h. simpl. repeat split; [done..|lia]. }
  destruct (arrays h !! action) as [[c w]|] eqn:Ha; [|done].
  destruct (leaf_ready_corrupted legacy_gauss scale c w n dt lo hi s Hready)
    as (-> & Hdt & Hsd & sums & ys & Hsum & Hclip).
  pose proof (corrupt_action_bounded legacy_gauss h scale r action n dt lo hi
                (NdArray c true) s sums ys Ha eq_refl Hdt Hr Hsd Hsum Hclip) as H.
  eexists. split; [exact H|]. split; [|simpl; by rewrite lookup_insert_eq].
  intros l.
  pose proof (keeps_shapes_corrupt_action legacy_gauss scale (PyRandomState r)
                action (BoundedArray n dt lo hi) h l) as Hk.
  by rewrite H in Hk.
Qed.

Lemma mapM_corrupt_ready scale r (l : list (loc * Specs.Array)) :
  ∀ h s, generators h !! r = Some s →
  forallb (λ ls, leaf_ready scale (arrays h !! ls.1) ls.2) l = true →
  ∃ h', mapM (λ ab, _corrupt_action legacy_gauss scale (PyRandomState r) ab.1 ab.2)
          l h = (Returned l.*1, h') ∧
        generators h' !! r
        = Some (draw legacy_gauss (concat (leaf_stddev scale <$> l.*2)) s).2 ∧
        draws h' = draws h + length (concat (leaf_stddev scale <$> l.*2)).
Proof.
  induction l as [|[a sp] l IH]; intros h s Hr Hall; simpl in *.
  { exists h. split; [done|]. split; [done|]. cbn. lia. }
  apply andb_true_iff in Hall as [Hleaf Hrest].
  destruct (corrupt_action_ready h scale r s a sp Hr Hleaf)
    as (h1 & H1 & Hsh & Hg & Hd).
  destruct (IH h1 _ Hg) as (h2 & H2 & Hg2 & Hd2).
  { rewrite <- Hrest. apply forallb_agree. intros [a' sp']. simpl.
    apply leaf_ready_shape, Hsh. }
  exists h2. split; [|split].
  - unfold mbind, M_bind. rewrite H1. simpl.
    unfold mbind, M_bind in H2. by rewrite H2.
  - by rewrite draw_app.
  - by rewrite length_app, Hd2, Hd, Nat.add_assoc.
Qed.

Lemma mapM_corrupt_returned scale rs (l : list (loc * Specs.Array)) :
  ∀ h h' res,
  mapM (λ ab, _corrupt_action legacy_gauss scale rs ab.1 ab.2) l h
    = (Returned res, h') →
  res = l.*1.
Proof.
  induction l as [|[a sp] l IH]; intros h h' res; simpl.
  { by intros [= <- _]. }
  unfold mbind, M_bind.
  destruct (_corrupt_action legacy_gauss scale rs a sp h) as [[a'|e] h1] eqn:H1;
    [|done].
  apply corrupt_action_same in H1 as ->.
  destruct (mapM _ l h1) as [[res'|e] h2] eqn:H2; [|done].
  apply IH in H2 as ->. by intros [= <- _].
Qed.

Lemma mapM_corrupt_frame scale rs (l : list (loc * Specs.Array)) h a :
  a ∉ l.*1 →
  arrays (mapM (λ ab, _corrupt_action legacy_gauss scale rs ab.1 ab.2) l h).2 !! a
  = arrays h !! a.
Proof.
  revert h. induction l as [|[a' sp] l IH]; intros h Hni; simpl; [done|].
  apply not_elem_of_cons in Hni as [Hne Hni]. simpl in *.
  unfold mbind, M_bind.
  pose proof (writes_only_corrupt_action legacy_gauss scale rs a' sp h a Hne) as H1.
  destruct (_corrupt_action legacy_gauss scale rs a' sp h) as [[x|e] h1];
    simpl in *; [|done].
  specialize (IH h1 Hni).
  destruct (mapM _ l h1) as [[ys|e] h2]; simpl in *; by rewrite IH.
Qed.

(** What a corruption that returns has left in each leaf: the clipped sum
    of the leaf as it was and the noise drawn for it, in the state the
    samples of the leaves before it have left the generator in. *)
Lemma mapM_corrupt_explicit scale rs (l : list (loc * Specs.Array)) :
  ∀ h h' res,
  NoDup l.*1 →
  mapM (λ ab, _corrupt_action legacy_gauss scale rs ab.1 ab.2) l h
    = (Returned res, h') →
  ∀ i a n dt lo hi, l !! i = Some (a, BoundedArray n dt lo hi) →
    ∃ r s x sums ys,
      rs = PyRandomState r ∧
      generators h !! r = Some s ∧
      arrays h !! a = Some x ∧
      noisy_sum legacy_gauss scale lo hi (contents_of x)
        (state_before legacy_gauss scale l.*2 i s) = Some sums ∧
      clip (floats (is_scalar (contents_of x)) sums) lo hi = Some ys ∧
      arrays h' !! a = Some (NdArray (floats (is_scalar (contents_of x)) ys) true).
Proof.
  induction l as [|[a0 sp0] l IH]; intros h h' res Hnd Hm i a n dt lo hi Hi.
  { done. }
  simpl in *. apply NoDup_cons in Hnd as [Hni Hnd].
  unfold mbind, M_bind in Hm.
  destruct (_corrupt_action legacy_gauss scale rs a0 sp0 h) as [[x0|e] h1] eqn:H1;
    [|done].
  destruct (mapM _ l h1) as [[res'|e] h2] eqn:H2; [|done].
  injection Hm as _ <-.
  pose proof (mapM_corrupt_frame scale rs l h1) as Hfr.
  rewrite H2 in Hfr. simpl in Hfr.
  destruct i as [|i]; simpl in Hi.
  - injection Hi as -> ->. pose proof H1 as H1'.
    apply corrupt_action_returned in H1'
      as (r & s & x & sums & ys & -> & Ha & Hw & Hdt & Hr & Hsd & Hsum & Hclip).
    rewrite (corrupt_action_bounded legacy_gauss h scale r a n dt lo hi
               x s sums ys) in H1 by done.
    injection H1 as _ <-.
    exists r, s, x, sums, ys. repeat split; try done.
    rewrite (Hfr a Hni). simpl. by rewrite lookup_insert_eq.
  - destruct (IH h1 h2 res' Hnd H2 i a n dt lo hi Hi)
      as (r & s1 & x & sums & ys & -> & Hr1 & Ha1 & Hsum & Hclip & Hres).
    assert (Hne : a ≠ a0).
    { intros ->. apply Hni. apply list_elem_of_fmap.
      exists (a0, BoundedArray n dt lo hi). split; [done|].
      by eapply list_elem_of_lookup_2. }
    pose proof (writes_only_corrupt_action legacy_gauss scale (PyRandomState r)
                  a0 sp0 h a Hne) as Hw0.
    rewrite H1 in Hw0. simpl in Hw0. rewrite Hw0 in Ha1.
    destruct sp0 as [n0 dt0|n0 dt0 lo0 hi0].
    + injection H1 as _ <-.
      exists r, s1, x, sums, ys. repeat split; try done.
    + pose proof H1 as H1'.
      apply corrupt_action_returned in H1'
        as (r0 & s & x0' & sums0 & ys0
            & [= <-] & Ha0 & Hw & Hdt & Hr & Hsd & Hsum0 & Hclip0).
      rewrite (corrupt_action_bounded legacy_gauss h scale r a0 n0 dt0 lo0 hi0
                 x0' s sums0 ys0) in H1 by done.
      injection H1 as _ <-. simpl in Hr1. rewrite lookup_insert_eq in Hr1.
      injection Hr1 as <-.
      exists r, s, x, sums, ys. repeat split; try done.
      unfold state_before in *. simpl. by rewrite draw_app.
Qed.

End tree_level.

Section nested.
Context {mt_state : Type} (legacy_gauss : mt_state → float * mt_state).
Implicit Types (h : heap mt_state).

Lemma corrupt_nested_mismatch h action spec scale rs e :
  assert_same_structure action spec = Some e →
  _corrupt_nested_action legacy_gauss action spec scale rs h = (Raised e, h).
Proof.
  intros H. unfold _corrupt_nested_action, map_structure. by rewrite H.
Qed.

Lemma corrupt_nested_returned h h' action spec scale rs a :
  _corrupt_nested_action legacy_gauss action spec scale rs h = (Returned a, h') →
  a = action ∧ congruent action spec.
Proof.
  unfold _corrupt_nested_action, map_structure.
  destruct (assert_same_structure action spec) as [e|] eqn:Hs; [done|].
  apply assert_same_structure_None in Hs.
  unfold mbind, M_bind.
  destruct (mapM _ _ h) as [[res|e] h1] eqn:Hm; [|done].
  apply mapM_corrupt_returned in Hm as ->.
  rewrite fst_zip by (by rewrite (congruent_flatten_length _ _ Hs)).
  unfold lift. rewrite unflatten_as_flatten. by intros [= <- _].
Qed.

Lemma corrupt_nested_ready h action spec scale r s :
  congruent action spec →
  generators h !! r = Some s →
  action_ready scale (arrays h) action spec = true →
  ∃ h', _corrupt_nested_action legacy_gauss action spec scale (PyRandomState r) h
          = (Returned action, h') ∧
        generators h' !! r
        = Some (draw legacy_gauss (action_stddev scale spec) s).2 ∧
        draws h' = draws h + length (action_stddev scale spec).
Proof.
  intros Hc Hr Hready.
  unfold _corrupt_nested_action, map_structure.
  rewrite (congruent_assert_same_structure _ _ Hc).
  pose proof (congruent_flatten_length _ _ Hc) as Hlen.
  destruct (mapM_corrupt_ready legacy_gauss scale r _ h s Hr Hready)
    as (h' & Hm & Hg & Hd).
  rewrite snd_zip in Hg, Hd by lia.
  exists h'. unfold mbind, M_bind. rewrite Hm.
  rewrite fst_zip by lia. unfold lift. by rewrite unflatten_as_flatten.
Qed.

Lemma corrupt_nested_explicit h h' action spec scale rs a :
  NoDup (flatten action) →
  _corrupt_nested_action legacy_gauss action spec scale rs h = (Returned a, h') →
  ∀ i l n dt lo hi,
    flatten action !! i = Some l →
    flatten spec !! i = Some (BoundedArray n dt lo hi) →
    ∃ r s x sums ys,
      rs = PyRandomState r ∧
      generators h !! r = Some s ∧
      arrays h !! l = Some x ∧
      noisy_sum legacy_gauss scale lo hi (contents_of x)
        (state_before legacy_gauss scale (flatten spec) i s) = Some sums ∧
      clip (floats (is_scalar (contents_of x)) sums) lo hi = Some ys ∧
      arrays h' !! l = Some (NdArray (floats (is_scalar (contents_of x)) ys) true).
Proof.
  intros Hnd H i l n dt lo hi Hl Hsp.
  pose proof (corrupt_nested_returned _ _ _ _ _ _ _ H) as [-> Hc].
  unfold _corrupt_nested_action, map_structure in H.
  rewrite (congruent_assert_same_structure _ _ Hc) in H.
  unfold mbind, M_bind in H.
  destruct (mapM _ _ h) as [[res|e] h1] eqn:Hm; [|done].
  assert (h1 = h') as ->.
  { unfold lift in H. by injection H. }
  pose proof (congruent_flatten_length _ _ Hc) as Hlen.
  eapply (mapM_corrupt_explicit legacy_gauss) in Hm.
  - rewrite snd_zip in Hm by lia. exact Hm.
  - by rewrite fst_zip by lia.
  - rewrite lookup_zip_with, Hl. simpl. by rewrite Hsp.
Qed.

Lemma step_delivered {TimeStep} (self : ActionNoiseWrapper mt_state TimeStep)
    action h :
  step legacy_gauss self action h
  = match delivered_action legacy_gauss self action h with
    | (Returned a, h') => env_step (_environment self) a h'
    | (Raised e, h') => (Raised e, h')
    end.
Proof. unfold step, delivered_action, mbind, M_bind. done. Qed.
End nested.

(** ** Two runs side by side *)

Section two_runs.
Context {mt_state : Type} (legacy_gauss : mt_state → float * mt_state).
Context (r1 r2 : loc).
Implicit Types (h : heap mt_state).

Local Abbreviation agree := (Contract.agree (mt_state:=mt_state) r1 r2).
Local Abbreviation related := (Contract.related (mt_state:=mt_state) r1 r2).

Lemma related_ret {A} (a : A) : related (mret a) (mret a).
Proof. by intros h1 h2 H. Qed.

Lemma related_raise {A} e : related (raise (A:=A) e) (raise e).
Proof. by intros h1 h2 H. Qed.

Lemma related_lift {A} (o : outcome A) : related (lift o) (lift o).
Proof. by intros h1 h2 H. Qed.

Lemma related_bind {A B} (m1 m2 : M mt_state A) (f1 f2 : A → M mt_state B) :
  related m1 m2 → (∀ a, related (f1 a) (f2 a)) →
  related (m1 ≫= f1) (m2 ≫= f2).
Proof.
  intros Hm Hf h1 h2 H. unfold mbind, M_bind.
  destruct (Hm h1 h2 H) as [Ho Hh].
  destruct (m1 h1) as [[a|e] h1'], (m2 h2) as [[a'|e'] h2']; simplify_eq/=;
    [by apply Hf | done].
Qed.

Lemma related_get_array a : related (get_array a) (get_array a).
Proof.
  intros h1 h2 Hag. pose proof Hag as [Ha Hg]. unfold get_array. rewrite Ha.
  by destruct (arrays h2 !! a).
Qed.

Lemma related_set_array a v : related (set_array a v) (set_array a v).
Proof. intros h1 h2 [Ha Hg]. unfold set_array, agree. simpl. by rewrite Ha. Qed.

Lemma related_normal scale :
  related (normal legacy_gauss (PyRandomState r1) scale)
          (normal legacy_gauss (PyRandomState r2) scale).
Proof.
  intros h1 h2 Hag. pose proof Hag as [Ha Hg]. unfold normal.
  destruct (negative_scale (as_float scale)); [done|].
  destruct (generators h2 !! r2) as [s|] eqn:H2; rewrite Hg; [|done].
  destruct (draw legacy_gauss (as_float scale) s) as [noise s'].
  unfold agree. simpl. by rewrite !lookup_insert_eq.
Qed.

Lemma related_iadd a noise : related (iadd a noise) (iadd a noise).
Proof.
  unfold iadd. apply related_bind; [apply related_get_array|].
  intros v. repeat case_match; first [apply related_set_array | apply related_raise].
Qed.

Lemma related_clip_out a lo hi : related (clip_out a lo hi) (clip_out a lo hi).
Proof.
  unfold clip_out. apply related_bind; [apply related_get_array|].
  intros v. repeat case_match; first [apply related_set_array | apply related_raise].
Qed.

Lemma related_corrupt_action scale a spec :
  related (_corrupt_action legacy_gauss scale (PyRandomState r1) a spec)
          (_corrupt_action legacy_gauss scale (PyRandomState r2) a spec).
Proof.
  destruct spec as [n dt|n dt lo hi]; [apply related_ret|].
  unfold _corrupt_action. apply related_bind.
  { destruct (subtract hi lo); [apply related_ret | apply related_raise]. }
  intros range. apply related_bind; [apply related_normal|].
  intros noise. apply related_bind; [apply related_iadd|].
  intros _. apply related_bind; [apply related_clip_out|].
  intros _. apply related_ret.
Qed.

Lemma related_mapM {A B} (f1 f2 : A → M mt_state B) l :
  (∀ a, related (f1 a) (f2 a)) → related (mapM f1 l) (mapM f2 l).
Proof.
  intros Hf. induction l as [|x l IH]; simpl; [apply related_ret|].
  apply related_bind; [apply Hf|]. intros y.
  apply related_bind; [apply IH|]. intros ys. apply related_ret.
Qed.

Lemma related_corrupt_nested action spec scale :
  related
    (_corrupt_nested_action legacy_gauss action spec scale (PyRandomState r1))
    (_corrupt_nested_action legacy_gauss action spec scale (PyRandomState r2)).
Proof.
  unfold _corrupt_nested_action, map_structure.
  destruct (assert_same_structure action spec); [apply related_raise|].
  apply related_bind.
  - apply related_mapM. intros [a sp]. apply related_corrupt_action.
  - intros res. apply related_lift.
Qed.

Lemma related_corrupted_actions {TimeStep}
    (w1 w2 : ActionNoiseWrapper mt_state TimeStep) actions :
  _action_spec w1 = _action_spec w2 →
  _scale w1 = _scale w2 →
  _random_state w1 = PyRandomState r1 →
  _random_state w2 = PyRandomState r2 →
  ∀ h1 h2, agree h1 h2 →
  corrupted_actions legacy_gauss w1 actions h1
  = corrupted_actions legacy_gauss w2 actions h2.
Proof.
  intros Hspec Hscale Hr1 Hr2.
  assert (Hstep : ∀ action,
    related (delivered_action legacy_gauss w1 action)
            (delivered_action legacy_gauss w2 action)).
  { intros action. unfold delivered_action. rewrite Hspec, Hscale, Hr1, Hr2.
    destruct (ltb zero (_scale w2));
      [apply related_corrupt_nested | apply related_ret]. }
  induction actions as [|action actions IH]; intros h1 h2 Hag; simpl; [done|].
  destruct (Hstep action h1 h2 Hag) as [Ho Hh].
  destruct (delivered_action legacy_gauss w1 action h1) as [o1 h1'],
           (delivered_action legacy_gauss w2 action h2) as [o2 h2'].
  simpl in *. subst o2. rewrite (IH h1' h2' Hh). by destruct Hh as [-> _].
Qed.
End two_runs.

(** ** Construction *)

Section construction.
Context {mt_state TimeStep : Type} (legacy_seeding : Z → option mt_state).
Implicit Types (h : heap mt_state) (env : Environment mt_state TimeStep).

Lemma leb_zero_not_ltb scale : leb zero scale = true → ltb scale zero = false.
Proof. by destruct scale as [[]|[]| |[] m e]. Qed.

Lemma eqb_zero_not_ltb scale :
  eqb scale zero = true → ltb scale zero = false ∧ ltb zero scale = false.
Proof. by destruct scale as [[]|[]| |[] m e]. Qed.

(** [__init__] past the check of [scale], by the source of the generator. *)
Lemma init_resolution env scale supplied entropy h :
  ltb scale zero = false →
  __init__ legacy_seeding env scale supplied entropy h
  = let wrapper rs :=
      {| _environment := env; _action_spec := action_spec env;
         _scale := scale; _random_state := rs |} in
    let r := fresh (dom (generators h)) in
    let new s :=
      (Returned (wrapper (PyRandomState r)),
       Heap (arrays h) (<[r := s]> (generators h)) (draws h)) in
    match resolution_policy env supplied with
    | NewSeeded seed =>
        match legacy_seeding seed with
        | Some s => new s
        | None =>
            (Raised (ValueError "Seed must be between 0 and 2**32 - 1"), h)
        end
    | NewUnseeded => new entropy
    | Found (PyRandomState r') => (Returned (wrapper (PyRandomState r')), h)
    | Found _ => (Raised AssertionError, h)
    end.
Proof.
  intros Hs. unfold __init__, resolution_policy. rewrite Hs.
  destruct supplied as [|seed|r'|repr]; simpl; try done.
  - destruct (task env) as [t|]; [|done].
    unfold try_except_AttributeError, getattr_random, getattr_random_state,
      mbind, M_bind.
    destruct (random t) as [o|]; simpl.
    + by destruct o.
    + destruct (random_state env) as [o|]; simpl; [by destruct o|done].
  - unfold mbind, M_bind, RandomState.
    by destruct (legacy_seeding seed).
Qed.

Lemma init_negative env scale supplied entropy h :
  ltb scale zero = true →
  __init__ legacy_seeding env scale supplied entropy h
  = (Raised (ValueError "scale must be non-negative."), h).
Proof. intros Hs. unfold __init__. by rewrite Hs. Qed.

Lemma init_returned env scale supplied entropy h w h' :
  __init__ legacy_seeding env scale supplied entropy h = (Returned w, h') →
  ltb scale zero = false ∧
  _environment w = env ∧ _action_spec w = action_spec env ∧ _scale w = scale ∧
  arrays h' = arrays h ∧
  ∃ r, _random_state w = PyRandomState r.
Proof.
  destruct (ltb scale zero) eqn:Hs; [by rewrite init_negative|].
  rewrite init_resolution by done. simpl.
  destruct (resolution_policy env supplied) as [seed| |[| |r|]]; try done.
  - destruct (legacy_seeding seed); [|done]. intros [= <- <-]. simpl. eauto 10.
  - intros [= <- <-]. simpl. eauto 10.
  - intros [= <- <-]. simpl. eauto 10.
Qed.

Lemma init_seeded env scale seed entropy h w h' :
  __init__ legacy_seeding env scale (PyInt seed) entropy h = (Returned w, h') →
  ∃ s, legacy_seeding seed = Some s ∧
       _random_state w = PyRandomState (fresh (dom (generators h))) ∧
       generators h' !! fresh (dom (generators h)) = Some s ∧
       arrays h' = arrays h ∧
       _scale w = scale ∧ _action_spec w = action_spec env.
Proof.
  destruct (ltb scale zero) eqn:Hs; [by rewrite init_negative|].
  rewrite init_resolution by done. simpl.
  destruct (legacy_seeding seed) as [s|]; [|done].
  intros [= <- <-]. exists s. simpl. by rewrite lookup_insert_eq.
Qed.
End construction.

(** ** Bounds of zero width *)

Section zero_width.
Context {mt_state : Type} (legacy_gauss : mt_state → float * mt_state).
Implicit Types (h : heap mt_state) (xs bs : list float).

Lemma broadcast2_diag {A C} (f : A → A → C) (l : list A) :
  broadcast2 f l l = Some (zip_with f l l).
Proof.
  unfold broadcast2, broadcast_shapes. rewrite decide_True by done. simpl.
  by rewrite broadcast_to_same.
Qed.

Lemma zip_with_sub_diag bs :
  forallb isfinite bs = true → zip_with sub bs bs = replicate (length bs) zero.
Proof.
  induction bs as [|b bs IH]; simpl; [done|].
  intros [Hb Hbs]%andb_true_iff. by rewrite sub_diag, IH.
Qed.

Lemma of_int_zero : of_int 0 = zero.
Proof. done. Qed.

Lemma wrap64_zero : wrap64 0 = 0%Z.
Proof. done. Qed.

Lemma zip_with_int_sub_diag (zs : list Z) :
  of_int <$> zip_with (λ u v, wrap64 (u - v)) zs zs
  = replicate (length zs) zero.
Proof.
  induction zs as [|z zs IH]; csimpl; [done|].
  rewrite Z.sub_diag, wrap64_zero, of_int_zero. f_equal. exact IH.
Qed.

(** A spec whose two bounds are the same finite array has a range of 0. *)
Lemma subtract_diag (b : contents) :
  forallb isfinite (as_float b) = true →
  ∃ range, subtract b b = Some range ∧
           as_float range = replicate (size b) zero.
Proof.
  unfold subtract. intros Hfin.
  destruct (as_int b) as [zs|] eqn:Hzs.
  - rewrite broadcast2_diag. simpl. eexists. split; [done|].
    by rewrite ints_as_float, zip_with_int_sub_diag, (as_int_length b zs Hzs).
  - rewrite broadcast2_diag. simpl. eexists. split; [done|].
    by rewrite floats_as_float, zip_with_sub_diag, as_float_length.
Qed.

Lemma scale_zero_range scale k :
  isfinite scale = true → ltb zero scale = true →
  mul scale <$> replicate k zero = replicate k zero.
Proof.
  intros Hf Hp. rewrite fmap_replicate. by rewrite mul_zero_r.
Qed.

Lemma negative_scale_zeros k : negative_scale (replicate k zero) = false.
Proof. induction k as [|k IH]; simpl; [done|]. apply IH. Qed.

Lemma draw_zeros k s :
  (∀ s, isfinite (legacy_gauss s).1 = true) →
  (draw legacy_gauss (replicate k zero) s).1 = replicate k zero.
Proof.
  intros Hg. revert s. induction k as [|k IH]; intros s; simpl; [done|].
  pose proof (Hg s) as Hs. destruct (legacy_gauss s) as [g s1]. simpl in Hs.
  specialize (IH s1). destruct (draw legacy_gauss (replicate k zero) s1).
  simpl in *. by rewrite normal_sample_zero, IH.
Qed.

Lemma broadcast_to_Forall {A} (P : A → Prop) (l : list A) n l' :
  broadcast_to l n = Some l' → Forall P l → Forall P l'.
Proof.
  unfold broadcast_to. case_decide; [naive_solver|].
  destruct l as [|x [|]]; try done. intros [= <-] Hx.
  apply Forall_replicate. by inversion Hx.
Qed.

Lemma forallb_Forall {A} (f : A → bool) (l : list A) :
  forallb f l = true ↔ Forall (λ x, f x = true) l.
Proof.
  induction l as [|x l IH]; simpl; [by split|].
  rewrite andb_true_iff, IH, Forall_cons. done.
Qed.

(** The sum of a leaf and its noise, element by element. *)
Lemma noisy_sum_inv scale n dt lo hi c s sums :
  noisy_sum legacy_gauss scale lo hi c s = Some sums →
  ∃ nz,
    broadcast_to (draw legacy_gauss (leaf_stddev scale (BoundedArray n dt lo hi))
                    s).1 (size c) = Some nz ∧
    sums = zip_with add (as_float c) nz.
Proof.
  unfold noisy_sum, drawn_noise, leaf_stddev.
  destruct (subtract hi lo) as [range|]; [|done]. simpl.
  destruct (broadcast_into _ c) as [nz|] eqn:Hnz; [|done]. simpl.
  intros [= <-]. exists nz. split; [|done].
  unfold broadcast_into in Hnz. case_match; [done|].
  by rewrite floats_as_float in Hnz.
Qed.

Lemma leaf_stddev_point scale n dt (b : contents) :
  isfinite scale = true → ltb zero scale = true →
  forallb isfinite (as_float b) = true →
  leaf_stddev scale (BoundedArray n dt b b) = replicate (size b) zero ∧
  stddev_accepted scale b b = true.
Proof.
  intros Hfin Hpos Hb. unfold leaf_stddev, stddev_accepted.
  destruct (subtract_diag b Hb) as (range & -> & Hrange).
  rewrite scalar_multiply_as_float, Hrange, scale_zero_range by done.
  by rewrite negative_scale_zeros.
Qed.

End zero_width.

(** ** The properties of the wrapper *)

Section claims_step.
Context {mt_state TimeStep : Type}.
Context (legacy_gauss : mt_state → float * mt_state).
Context (legacy_seeding : Z → option mt_state).
Implicit Types (h : heap mt_state) (env : Environment mt_state TimeStep).
Implicit Types (self : ActionNoiseWrapper mt_state TimeStep).

(** A corruption that returns found every leaf ready for it. *)
Lemma mapM_corrupt_returned_ready scale rs (l : list (loc * Specs.Array)) :
  ∀ h h' res,
  mapM (λ ab, _corrupt_action legacy_gauss scale rs ab.1 ab.2) l h
    = (Returned res, h') →
  forallb (λ ls, leaf_ready scale (arrays h !! ls.1) ls.2) l = true.
Proof.
  induction l as [|[a sp] l IH]; intros h h' res; simpl; [done|].
  unfold mbind, M_bind.
  destruct (_corrupt_action legacy_gauss scale rs a sp h) as [[a'|e] h1] eqn:H1;
    [|done].
  destruct (mapM _ l h1) as [[res'|e] h2] eqn:H2; [|done].
  intros _. apply andb_true_iff. split.
  - destruct sp as [n dt|n dt lo hi]; [done|].
    by eapply corrupt_action_returned_ready.
  - rewrite <- (IH _ _ _ H2). apply forallb_agree. intros [a0 sp0]. simpl.
    apply leaf_ready_shape. symmetry.
    pose proof (keeps_shapes_corrupt_action legacy_gauss scale rs a sp h a0) as Hk.
    by rewrite H1 in Hk.
Qed.

(** Claim C1, as amended: the clip invariant.  Take a corruption with
    [scale > 0] that returns, over an action whose leaves are distinct
    arrays and a spec whose bounded leaves have [minimum <= maximum].  Then
    every leaf under a bounded spec holds [ys], the clip of [sums], which
    are the sums of the elements it held and the noise drawn for it (in the
    state the samples of the leaves before it have left the wrapper's
    generator in): an element of the leaf is NaN exactly where the sum is,
    and every other element lies within its bounds.  The wrapped
    environment is handed these very arrays. *)
Theorem bounded_leaves_clipped self action h a h' :
  ltb zero (_scale self) = true →
  NoDup (flatten action) →
  forallb valid_spec (flatten (_action_spec self)) = true →
  delivered_action legacy_gauss self action h = (Returned a, h') →
  ∀ i l n dt lo hi,
    flatten action !! i = Some l →
    flatten (_action_spec self) !! i = Some (BoundedArray n dt lo hi) →
    ∃ r s x sums ys,
      _random_state self = PyRandomState r ∧
      generators h !! r = Some s ∧
      arrays h !! l = Some x ∧
      noisy_sum legacy_gauss (_scale self) lo hi (contents_of x)
        (state_before legacy_gauss (_scale self)
           (flatten (_action_spec self)) i s) = Some sums ∧
      clip (floats (is_scalar (contents_of x)) sums) lo hi = Some ys ∧
      arrays h' !! l
      = Some (NdArray (floats (is_scalar (contents_of x)) ys) true) ∧
      nan_alike sums ys ∧
      clipped_or_nan lo hi ys.
Proof.
  intros Hs Hnd Hval Hd i l n dt lo hi Hl Hsp.
  unfold delivered_action in Hd. rewrite Hs in Hd.
  destruct (corrupt_nested_explicit legacy_gauss _ _ _ _ _ _ _ Hnd Hd
              i l n dt lo hi Hl Hsp)
    as (r & s & x & sums & ys & Hr & Hg & Hx & Hsum & Hclip & Hres).
  exists r, s, x, sums, ys. repeat split; try done.
  - by rewrite (clip_length _ _ _ _ Hclip), floats_size.
  - assert (Hord : bounds_ordered lo hi = true).
    { apply forallb_Forall in Hval. rewrite Forall_forall in Hval.
      apply (Hval (BoundedArray n dt lo hi)). by eapply list_elem_of_lookup_2. }
    destruct (clip_within _ _ _ _ Hord Hclip) as [_ [_ Hnan]].
    intros j v y Hv Hy. apply (Hnan j); [|done]. by rewrite floats_as_float.
  - assert (Hord : bounds_ordered lo hi = true).
    { apply forallb_Forall in Hval. rewrite Forall_forall in Hval.
      apply (Hval (BoundedArray n dt lo hi)). by eapply list_elem_of_lookup_2. }
    by destruct (clip_within _ _ _ _ Hord Hclip) as [? _].
Qed.

(** Claim C2: an injector constructed with [scale == 0] hands the caller's
    action to the wrapped environment as it is.  The delivered action is the
    caller's structure of the same arrays and the heap is the one [step]
    started in: no array is written, no sample is drawn ([draws] keeps its
    value) and every generator keeps its state. *)
Theorem zero_scale_delegates_unchanged
    env scale supplied entropy h0 self h1 action h :
  eqb scale zero = true →
  __init__ legacy_seeding env scale supplied entropy h0 = (Returned self, h1) →
  delivered_action legacy_gauss self action h = (Returned action, h) ∧
  step legacy_gauss self action h = env_step env action h.
Proof.
  intros Hz Hin.
  apply init_returned in Hin as (_ & He & _ & Hsc & _).
  destruct (eqb_zero_not_ltb _ Hz) as [_ Hlt].
  assert (Hd : delivered_action legacy_gauss self action h = (Returned action, h)).
  { unfold delivered_action. by rewrite Hsc, Hlt. }
  split; [done|]. by rewrite step_delivered, Hd, He.
Qed.

(** Claim C3, as amended: with [scale > 0], an action whose nesting is not
    congruent to the captured spec (a leaf in the place of a container or
    the reverse, containers of different types or keys, a different number
    of children) makes [step] raise the [ValueError] or [TypeError] of
    dm-tree's structure check.  The wrapped environment is not called and
    the heap is the one [step] started in: no array is written and no
    sample is drawn.  The shapes of the leaves are not compared. *)
Theorem structure_mismatch_raises self action h :
  ltb zero (_scale self) = true →
  ¬ congruent action (_action_spec self) →
  ∃ e msg, (e = ValueError msg ∨ e = TypeError msg) ∧
           step legacy_gauss self action h = (Raised e, h).
Proof.
  intros Hs Hnc.
  destruct (assert_same_structure action (_action_spec self)) as [e|] eqn:Ha.
  - destruct (assert_same_structure_exn _ _ _ Ha) as [msg Hmsg].
    exists e, msg. split; [done|].
    rewrite step_delivered. unfold delivered_action. rewrite Hs.
    by rewrite (corrupt_nested_mismatch _ _ _ _ _ _ _ Ha).
  - by apply assert_same_structure_None in Ha.
Qed.

(** Claim C4, as amended: [step] raises nothing of its own, for any scale,
    when the action is congruent to the spec and every leaf under a bounded
    spec is ready for the corruption: a writeable float64 array to whose
    shape the bounds broadcast, with standard deviations [normal] accepts.
    The corruption then returns the caller's action, and [step] is the
    wrapped environment's [step] on it: an exception the caller sees is the
    environment's.  These conditions are also necessary: with [scale > 0]
    the corruption returns on no other action. *)
Theorem step_raises_nothing_itself self action h r :
  _random_state self = PyRandomState r →
  is_Some (generators h !! r) →
  (congruent action (_action_spec self) →
   action_ready (_scale self) (arrays h) action (_action_spec self) = true →
   ∃ h', delivered_action legacy_gauss self action h = (Returned action, h') ∧
         step legacy_gauss self action h
         = env_step (_environment self) action h') ∧
  (ltb zero (_scale self) = true →
   is_returned (delivered_action legacy_gauss self action h).1 = true →
   congruent action (_action_spec self) ∧
   action_ready (_scale self) (arrays h) action (_action_spec self) = true).
Proof.
  intros Hr [s Hg]. split.
  - intros Hc Hready.
    assert (∃ h', delivered_action legacy_gauss self action h
                  = (Returned action, h')) as [h' Hd].
    { unfold delivered_action. destruct (ltb zero (_scale self)); [|by eexists].
      rewrite Hr.
      destruct (corrupt_nested_ready legacy_gauss h action (_action_spec self)
                  (_scale self) r s Hc Hg Hready) as (h' & H & _).
      by exists h'. }
    exists h'. split; [done|]. by rewrite step_delivered, Hd.
  - intros Hs. unfold delivered_action. rewrite Hs.
    destruct (_corrupt_nested_action _ _ _ _ _ h) as [[a|e] h'] eqn:Hd; [|done].
    intros _.
    pose proof (corrupt_nested_returned _ _ _ _ _ _ _ _ Hd) as [-> Hc].
    split; [done|].
    unfold _corrupt_nested_action, map_structure in Hd.
    rewrite (congruent_assert_same_structure _ _ Hc) in Hd.
    unfold mbind, M_bind in Hd.
    destruct (mapM _ _ h) as [[res|e] h1] eqn:Hm; [|done].
    by apply mapM_corrupt_returned_ready in Hm.
Qed.

(** Claim C5: two injectors constructed with the same integer seed and the
    same scale, around environments with the same action spec, and fed the
    same actions from heaps holding the same arrays, corrupt alike: action
    by action the corruption ends the same way and leaves the same contents
    in every array.  The two environments, the other generators in the two
    heaps and the entropy of the operating system may all differ. *)
Theorem same_seed_same_corruption
    env1 env2 scale seed entropy1 entropy2 h1 h2 w1 w2 h1' h2' actions :
  action_spec env1 = action_spec env2 →
  arrays h1 = arrays h2 →
  __init__ legacy_seeding env1 scale (PyInt seed) entropy1 h1 = (Returned w1, h1') →
  __init__ legacy_seeding env2 scale (PyInt seed) entropy2 h2 = (Returned w2, h2') →
  corrupted_actions legacy_gauss w1 actions h1'
  = corrupted_actions legacy_gauss w2 actions h2'.
Proof.
  intros Hspec Harr H1 H2.
  apply init_seeded in H1 as (s1 & Hs1 & Hr1 & Hg1 & Ha1 & Hsc1 & Hsp1).
  apply init_seeded in H2 as (s2 & Hs2 & Hr2 & Hg2 & Ha2 & Hsc2 & Hsp2).
  eapply related_corrupted_actions; [congruence|congruence|done|done|].
  split; congruence.
Qed.

(** Claim C6: with [scale < 0] the constructor raises
    [ValueError("scale must be non-negative.")] before anything else: no
    injector is returned and the heap is untouched.  With [scale >= 0] it
    does not raise this error. *)
Theorem negative_scale_rejected env scale supplied entropy h :
  (ltb scale zero = true →
   __init__ legacy_seeding env scale supplied entropy h
   = (Raised (ValueError "scale must be non-negative."), h)) ∧
  (leb zero scale = true →
   (__init__ legacy_seeding env scale supplied entropy h).1
   ≠ Raised (ValueError "scale must be non-negative.")).
Proof.
  split; [apply init_negative|].
  intros Hs%leb_zero_not_ltb. rewrite init_resolution by done. simpl.
  destruct (resolution_policy env supplied) as [seed| |[| |r|]]; try done.
  by destruct (legacy_seeding seed).
Qed.

(** Claim C7: past the check of [scale], the constructor resolves the random
    source once, as the policy of the spec says.  An integer becomes a new
    generator, at a reference not in use, in the state [RandomState(seed)]
    gives it; a supplied instance is kept by reference and nothing is
    allocated; with nothing supplied, an environment without a [task] gets a
    new unseeded generator, and otherwise [task.random], then the
    environment's [random_state], then a new unseeded generator are
    tried in this order.  What was found must be a [RandomState]. *)
Theorem random_source_resolution env scale supplied entropy h :
  ltb scale zero = false →
  (fresh (dom (generators h)) ∉ dom (generators h)) ∧
  __init__ legacy_seeding env scale supplied entropy h
  = let wrapper rs :=
      {| _environment := env; _action_spec := action_spec env;
         _scale := scale; _random_state := rs |} in
    let r := fresh (dom (generators h)) in
    let new s :=
      (Returned (wrapper (PyRandomState r)),
       Heap (arrays h) (<[r := s]> (generators h)) (draws h)) in
    match resolution_policy env supplied with
    | NewSeeded seed =>
        match legacy_seeding seed with
        | Some s => new s
        | None =>
            (Raised (ValueError "Seed must be between 0 and 2**32 - 1"), h)
        end
    | NewUnseeded => new entropy
    | Found (PyRandomState r') => (Returned (wrapper (PyRandomState r')), h)
    | Found _ => (Raised AssertionError, h)
    end.
Proof.
  intros Hs. split; [apply is_fresh | by apply init_resolution].
Qed.

(** Claim C10: a supplied random source that is neither an [int] nor a
    [RandomState] never makes it into an injector.  The construction does
    not complete, whatever the scale; past the check of the scale (which
    rejects a negative one first, see C6) it fails at the assertion that
    follows the resolution, with the heap untouched.  Equivalently, every
    injector the constructor returns holds a [RandomState]. *)
Theorem constructed_source_is_RandomState env scale supplied entropy h :
  (supplied ≠ PyNone →
   isinstance_int supplied = false →
   isinstance_RandomState supplied = false →
   is_returned (__init__ legacy_seeding env scale supplied entropy h).1 = false ∧
   (ltb scale zero = false →
    __init__ legacy_seeding env scale supplied entropy h
    = (Raised AssertionError, h))) ∧
  (∀ self h', __init__ legacy_seeding env scale supplied entropy h
              = (Returned self, h') →
     isinstance_RandomState (_random_state self) = true).
Proof.
  split.
  - intros Hn Hi Hr.
    assert (Hpast : ltb scale zero = false →
              __init__ legacy_seeding env scale supplied entropy h
              = (Raised AssertionError, h)).
    { intros Hs. rewrite init_resolution by done. by destruct supplied. }
    split; [|done].
    destruct (ltb scale zero) eqn:Hs; [by rewrite init_negative|].
    by rewrite Hpast.
  - intros self h' (_ & _ & _ & _ & _ & r & ->)%init_returned. done.
Qed.
End claims_step.

Section claims_leaf.
Context {mt_state : Type}.
Context (legacy_gauss : mt_state → float * mt_state).
Implicit Types (h : heap mt_state) (x : ndarray).

(** Claim C8, as amended: a bounded spec of zero width.  Let the two
    bounds be the same array of finite values, [scale] positive and finite,
    the action a writeable float64 array without NaN to whose shape the
    bounds broadcast, and the sampler return finite values.  Then the
    standard deviations are zero, every sample of [normal] is exactly
    [0.0], nothing is raised, and every element of the corrupted array
    compares equal to its bound: it is the bound itself, which the clip has
    moved it onto, or the element of the action plus the zero noise, which
    the clip keeps when it compares equal to the bound. *)
Theorem zero_width_range h scale r s action n dt (b : contents) x :
  (∀ s, isfinite (legacy_gauss s).1 = true) →
  ltb zero scale = true →
  isfinite scale = true →
  forallb isfinite (as_float b) = true →
  arrays h !! action = Some x →
  writeable x = true →
  dtype_of (contents_of x) = float64 →
  forallb (λ v, negb (isnan v)) (as_float (contents_of x)) = true →
  fits b (contents_of x) = true →
  generators h !! r = Some s →
  leaf_stddev scale (BoundedArray n dt b b) = replicate (size b) zero ∧
  (draw legacy_gauss (leaf_stddev scale (BoundedArray n dt b b)) s).1
  = replicate (size b) zero ∧
  ∃ ys,
    _corrupt_action legacy_gauss scale (PyRandomState r) action
      (BoundedArray n dt b b) h
    = (Returned action,
       Heap (<[action := NdArray (floats (is_scalar (contents_of x)) ys) true]>
               (arrays h))
            (<[r := (draw legacy_gauss
                       (leaf_stddev scale (BoundedArray n dt b b)) s).2]>
               (generators h))
            (draws h + size b)) ∧
    length ys = size (contents_of x) ∧
    ∀ j y l,
      ys !! j = Some y → bound b (size (contents_of x)) j = Some l →
      eqb y l = true ∧
      (y = l ∨ ∃ v, as_float (contents_of x) !! j = Some v ∧ y = add v zero).
Proof.
  intros Hg Hpos Hfin Hb Ha Hw Hdt Hxs Hfits Hr.
  destruct (leaf_stddev_point scale n dt b Hfin Hpos Hb) as [Hsd Hacc].
  assert (Hdraw : (draw legacy_gauss (leaf_stddev scale (BoundedArray n dt b b))
                     s).1 = replicate (size b) zero).
  { rewrite Hsd. by apply draw_zeros. }
  split; [done|]. split; [done|].
  destruct x as [c w]. cbn [contents_of writeable] in *. subst w.
  destruct (leaf_ready_corrupted legacy_gauss scale c true n dt b b s)
    as (_ & _ & _ & sums & ys & Hsum & Hclip).
  { simpl. rewrite Hdt, Hfits, Hacc. by rewrite bool_decide_eq_true_2. }
  pose proof (corrupt_action_bounded legacy_gauss h scale r action n dt b b
                (NdArray c true) s sums ys Ha eq_refl Hdt Hr Hacc Hsum Hclip) as H.
  rewrite Hsd, length_replicate in H. rewrite Hsd.
  exists ys. split; [exact H|].
  pose proof (noisy_sum_length _ _ _ _ _ _ _ Hsum) as Hlen.
  split; [by rewrite (clip_length _ _ _ _ Hclip), floats_size|].
  intros j y l Hy Hl.
  destruct (clip_lookup _ _ _ _ _ _ Hclip Hy) as (v & l1 & u1 & Hv & Hl1 & Hu1 & Hk).
  rewrite floats_as_float in Hv. rewrite floats_size, Hlen in Hl1, Hu1.
  rewrite Hl in Hl1, Hu1. injection Hl1 as <-. injection Hu1 as <-.
  destruct (noisy_sum_inv legacy_gauss scale n dt b b c s sums Hsum)
    as (nz & Hnz & ->).
  rewrite Hdraw in Hnz.
  assert (Hzeros : Forall (λ e, e = zero) nz).
  { eapply broadcast_to_Forall; [done|]. by apply Forall_replicate. }
  rewrite lookup_zip_with in Hv.
  destruct (as_float c !! j) as [x0|] eqn:Hx0; [|done]. simpl in Hv.
  destruct (nz !! j) as [e|] eqn:He; [|done]. simpl in Hv. injection Hv as <-.
  rewrite Forall_forall in Hzeros.
  rewrite (Hzeros e (list_elem_of_lookup_2 _ _ _ He)) in *.
  assert (Hnan : isnan (add x0 zero) = false).
  { rewrite add_zero_isnan. apply forallb_Forall in Hxs.
    rewrite Forall_forall in Hxs.
    by apply negb_true_iff, Hxs, (list_elem_of_lookup_2 _ j). }
  assert (Hlfin : isnan l = false).
  { apply forallb_Forall in Hb. rewrite Forall_forall in Hb.
    pose proof (Hb l (bound_elem _ _ _ _ Hl)). by destruct l. }
  split; [by apply (clip_of_point (add x0 zero))|].
  destruct Hk as [-> | ->].
  - left. by apply npy_clip_point.
  - destruct (npy_clip_const_point l (add x0 zero) Hnan Hlfin) as [_ [->| ->]];
      [by left|right; eauto].
Qed.

End claims_leaf.
(** ** Concrete runs *)

Import Example.

(** C1 on an action of [0.5] under bounds [0, 1]. *)
Lemma bounded_leaves_clipped_witness :
  ∃ r s x sums ys,
    _random_state (wrapper_of (Leaf unit_interval) eighth) = PyRandomState r ∧
    generators (heap_of [FloatArray [half]]) !! r = Some s ∧
    arrays (heap_of [FloatArray [half]]) !! 1%positive = Some x ∧
    noisy_sum toy_gauss eighth (FloatArray [zero]) (FloatArray [one])
      (contents_of x)
      (state_before toy_gauss eighth [unit_interval] 0 s) = Some sums ∧
    clip (floats (is_scalar (contents_of x)) sums)
      (FloatArray [zero]) (FloatArray [one]) = Some ys ∧
    arrays (delivered_action toy_gauss (wrapper_of (Leaf unit_interval) eighth)
              (Leaf 1%positive) (heap_of [FloatArray [half]])).2 !! 1%positive
    = Some (NdArray (floats (is_scalar (contents_of x)) ys) true) ∧
    nan_alike sums ys ∧
    clipped_or_nan (FloatArray [zero]) (FloatArray [one]) ys.
Proof.
  apply (bounded_leaves_clipped toy_gauss
           (wrapper_of (Leaf unit_interval) eighth) (Leaf 1%positive)
           (heap_of [FloatArray [half]]) (Leaf 1%positive) _
           eq_refl (NoDup_singleton 1%positive) eq_refl eq_refl
           0 1%positive [1] float64 (FloatArray [zero]) (FloatArray [one])
           eq_refl eq_refl).
Defined.

(** C1 as stated fails.  An element that is NaN stays NaN through the
    addition and the clip, and NaN is not within any bounds.  And an array
    that sits at two leaves is clipped last to the bounds [2, 3] of the
    second leaf, outside the bounds [0, 1] of the first. *)
Lemma nan_action_escapes_clip :
  (∃ a h' ys,
     delivered_action toy_gauss (wrapper_of (Leaf unit_interval) eighth)
       (Leaf 1%positive) (heap_of [FloatArray [S754_nan]]) = (Returned a, h') ∧
     arrays h' !! 1%positive = Some (array (FloatArray ys)) ∧
     ¬ clipped (FloatArray [zero]) (FloatArray [one]) ys) ∧
  (∃ a h' ys,
     delivered_action toy_gauss
       (wrapper_of (Node KList [Leaf unit_interval; Leaf upper_interval]) eighth)
       (Node KList [Leaf 1%positive; Leaf 1%positive])
       (heap_of [FloatArray [half]]) = (Returned a, h') ∧
     arrays h' !! 1%positive = Some (array (FloatArray ys)) ∧
     ¬ clipped (FloatArray [zero]) (FloatArray [one]) ys).
Proof.
  split.
  - eexists _, _, [S754_nan]. split; [vm_compute; reflexivity|].
    split; [vm_compute; reflexivity|].
    intros H. destruct (H 0 S754_nan eq_refl) as (lo & hi & Hlo & Hhi & Hw).
    vm_compute in Hlo, Hhi. by simplify_eq.
  - eexists _, _, [two]. split; [vm_compute; reflexivity|].
    split; [vm_compute; reflexivity|].
    intros H. destruct (H 0 two eq_refl) as (lo & hi & Hlo & Hhi & Hw).
    vm_compute in Hlo, Hhi. by simplify_eq.
Qed.

(** C2 on an injector of scale 0 around an environment with bounds
    [0, 1]. *)
Lemma zero_scale_delegates_unchanged_witness :
  delivered_action toy_gauss (wrapper_of (Leaf unit_interval) zero)
    (Leaf 1%positive) (heap_of [FloatArray [half]])
  = (Returned (Leaf 1%positive), heap_of [FloatArray [half]]) ∧
  step toy_gauss (wrapper_of (Leaf unit_interval) zero)
    (Leaf 1%positive) (heap_of [FloatArray [half]])
  = env_step (env_of (Leaf unit_interval)) (Leaf 1%positive)
      (heap_of [FloatArray [half]]).
Proof.
  apply (zero_scale_delegates_unchanged toy_gauss toy_seeding
           (env_of (Leaf unit_interval)) zero (PyRandomState 9) 0%Z
           (heap_of []) (wrapper_of (Leaf unit_interval) zero) (heap_of [])
           (Leaf 1%positive) (heap_of [FloatArray [half]]) eq_refl eq_refl).
Defined.

(** C3 on a list of one array where the spec is a single leaf. *)
Lemma structure_mismatch_raises_witness :
  ∃ e msg, (e = ValueError msg ∨ e = TypeError msg) ∧
    step toy_gauss (wrapper_of (Leaf unit_interval) eighth)
      (Node KList [Leaf 1%positive]) (heap_of [FloatArray [half]])
    = (Raised e, heap_of [FloatArray [half]]).
Proof.
  apply (structure_mismatch_raises toy_gauss
           (wrapper_of (Leaf unit_interval) eighth)
           (Node KList [Leaf 1%positive]) (heap_of [FloatArray [half]]) eq_refl).
  intros H. inversion H.
Defined.

(** C3 as stated fails for a shape mismatch at a leaf.  An array of three
    elements under a spec of shape [(1,)] is corrupted without any error.
    And when an array of two elements meets bounds of three in the second
    leaf, numpy raises only there: the first leaf has already been
    corrupted and four samples have been drawn. *)
Lemma leaf_shape_mismatch_not_rejected :
  (conforms (FloatArray [half; one; zero]) unit_interval = false ∧
   (step toy_gauss (wrapper_of (Leaf unit_interval) eighth) (Leaf 1%positive)
      (heap_of [FloatArray [half; one; zero]])).1 = Returned ()) ∧
  (conforms (FloatArray [half; half]) unit_cube = false ∧
   let h := heap_of [FloatArray [half]; FloatArray [half; half]] in
   let r := step toy_gauss
              (wrapper_of (Node KList [Leaf unit_interval; Leaf unit_cube]) eighth)
              (Node KList [Leaf 1%positive; Leaf 2%positive]) h in
   r.1 = Raised (ValueError "operands could not be broadcast together") ∧
   arrays h !! 1%positive = Some (array (FloatArray [half])) ∧
   arrays r.2 !! 1%positive = Some (array (FloatArray [nine_sixteenths])) ∧
   generators h !! 9%positive = Some 0%Z ∧
   generators r.2 !! 9%positive = Some 4%Z).
Proof. vm_compute. repeat split. Qed.

(** C4 on an action of [0.5] under bounds [0, 1]. *)
Lemma step_raises_nothing_itself_witness :
  (∃ h', delivered_action toy_gauss (wrapper_of (Leaf unit_interval) eighth)
           (Leaf 1%positive) (heap_of [FloatArray [half]])
         = (Returned (Leaf 1%positive), h') ∧
         step toy_gauss (wrapper_of (Leaf unit_interval) eighth)
           (Leaf 1%positive) (heap_of [FloatArray [half]])
         = env_step (env_of (Leaf unit_interval)) (Leaf 1%positive) h') ∧
  (congruent (Leaf 1%positive : nest loc) (Leaf unit_interval) ∧
   action_ready eighth (arrays (heap_of [FloatArray [half]]))
     (Leaf 1%positive) (Leaf unit_interval) = true).
Proof.
  split.
  - apply (proj1 (step_raises_nothing_itself toy_gauss
                    (wrapper_of (Leaf unit_interval) eighth) (Leaf 1%positive)
                    (heap_of [FloatArray [half]]) 9%positive eq_refl
                    (ex_intro _ 0%Z eq_refl))
             (congruent_leaf _ _) eq_refl).
  - apply (proj2 (step_raises_nothing_itself toy_gauss
                    (wrapper_of (Leaf unit_interval) eighth) (Leaf 1%positive)
                    (heap_of [FloatArray [half]]) 9%positive eq_refl
                    (ex_intro _ 0%Z eq_refl))
             eq_refl eq_refl).
Defined.

(** C4 as stated fails: the corruption itself raises on actions that match
    the spec's nesting, though the wrapped environment never raises.  An
    int64 action of the spec's shape and dtype, under an int64 bounded spec,
    makes the addition in place of the float64 noise raise.  So does a
    float64 action of the spec's shape and dtype that is read-only.  A
    float64 action of shape [()] under bounds of shape [(1,)] cannot take
    the noise of shape [(1,)].  And under the bounds [0.] and [-0.], which
    are ordered, the standard deviation is [-0.] and [normal] rejects it. *)
Lemma corruption_raises_on_matching_actions :
  (∀ spec a h, is_returned (env_step (env_of spec) a h).1 = true) ∧
  (congruent (Leaf 1%positive : nest loc) (Leaf discrete) ∧
   conforms (IntArray [1%Z]) discrete = true ∧
   (step toy_gauss (wrapper_of (Leaf discrete) eighth) (Leaf 1%positive)
      (heap_of [IntArray [1%Z]])).1
   = Raised (UFuncTypeError
               "Cannot cast ufunc 'add' output from float64 to int64")) ∧
  (conforms (FloatArray [half]) unit_interval = true ∧
   (step toy_gauss (wrapper_of (Leaf unit_interval) eighth) (Leaf 1%positive)
      (heap_with [read_only (FloatArray [half])])).1
   = Raised (ValueError "output array is read-only")) ∧
  (dtype_of (FloatScalar half) = float64 ∧
   (step toy_gauss (wrapper_of (Leaf unit_interval) eighth) (Leaf 1%positive)
      (heap_of [FloatScalar half])).1
   = Raised (ValueError "non-broadcastable output operand")) ∧
  (valid_spec signed_zeros = true ∧
   conforms (FloatArray [zero]) signed_zeros = true ∧
   (step toy_gauss (wrapper_of (Leaf signed_zeros) eighth) (Leaf 1%positive)
      (heap_of [FloatArray [zero]])).1
   = Raised (ValueError "scale < 0")).
Proof.
  split; [done|]. split; [split; [constructor|]|]; vm_compute; repeat split.
Qed.

(** C5 on two injectors seeded with 7, around two environments, in two
    heaps with different generators. *)
Lemma same_seed_same_corruption_witness :
  corrupted_actions toy_gauss
    (wrapper (env_of (Leaf unit_interval)) eighth 10)
    [Leaf 1%positive; Leaf 1%positive]
    (with_generator (heap_of [FloatArray [half]]) 10 7%Z)
  = corrupted_actions toy_gauss
      (wrapper (suite_env (Leaf unit_interval)) eighth 6)
      [Leaf 1%positive; Leaf 1%positive]
      (with_generator (other_heap [FloatArray [half]]) 6 7%Z).
Proof.
  apply (same_seed_same_corruption toy_gauss toy_seeding
           (env_of (Leaf unit_interval)) (suite_env (Leaf unit_interval))
           eighth 7%Z 0%Z 1%Z
           (heap_of [FloatArray [half]]) (other_heap [FloatArray [half]])
           _ _ _ _ _ eq_refl eq_refl eq_refl eq_refl).
Defined.

(** C6 on the scales -1 and 0.125. *)
Lemma negative_scale_rejected_witness :
  __init__ toy_seeding (env_of (Leaf unit_interval)) minus_one PyNone 0%Z
    (heap_of [])
  = (Raised (ValueError "scale must be non-negative."), heap_of []) ∧
  (__init__ toy_seeding (env_of (Leaf unit_interval)) eighth PyNone 0%Z
     (heap_of [])).1
  ≠ Raised (ValueError "scale must be non-negative.").
Proof.
  split.
  - apply (proj1 (negative_scale_rejected toy_seeding
                    (env_of (Leaf unit_interval)) minus_one PyNone 0%Z
                    (heap_of [])) eq_refl).
  - apply (proj2 (negative_scale_rejected toy_seeding
                    (env_of (Leaf unit_interval)) eighth PyNone 0%Z
                    (heap_of [])) eq_refl).
Defined.

(** C7 on an environment whose task carries a generator, and on an
    integer seed. *)
Lemma random_source_resolution_witness :
  __init__ toy_seeding (suite_env (Leaf unit_interval)) eighth PyNone 0%Z
    (other_heap [])
  = (Returned (wrapper (suite_env (Leaf unit_interval)) eighth 5),
     other_heap []) ∧
  __init__ toy_seeding (env_of (Leaf unit_interval)) eighth (PyInt 7) 0%Z
    (heap_of [])
  = (Returned (wrapper (env_of (Leaf unit_interval)) eighth 10),
     with_generator (heap_of []) 10 7%Z).
Proof.
  split.
  - exact (proj2 (random_source_resolution toy_seeding
                    (suite_env (Leaf unit_interval)) eighth PyNone 0%Z
                    (other_heap []) eq_refl)).
  - exact (proj2 (random_source_resolution toy_seeding
                    (env_of (Leaf unit_interval)) eighth (PyInt 7) 0%Z
                    (heap_of []) eq_refl)).
Defined.

(** The samples of the example generator are finite. *)
Lemma toy_gauss_finite : ∀ s, isfinite (toy_gauss s).1 = true.
Proof.
  intros s. unfold toy_gauss. simpl. repeat case_match; reflexivity.
Qed.

(** C8 on an action of [0.5] under the bounds [1, 1]. *)
Lemma zero_width_range_witness :
  leaf_stddev eighth point = replicate 1 zero ∧
  (draw toy_gauss (leaf_stddev eighth point) 0%Z).1 = replicate 1 zero ∧
  ∃ ys,
    _corrupt_action toy_gauss eighth (PyRandomState 9) 1%positive point
      (heap_of [FloatArray [half]])
    = (Returned 1%positive,
       Heap (<[1%positive := NdArray (floats false ys) true]>
               (arrays (heap_of [FloatArray [half]])))
            (<[9%positive := (draw toy_gauss (leaf_stddev eighth point) 0%Z).2]>
               (generators (heap_of [FloatArray [half]])))
            (draws (heap_of [FloatArray [half]]) + 1)) ∧
    length ys = 1 ∧
    ∀ j y l,
      ys !! j = Some y → bound (FloatArray [one]) 1 j = Some l →
      eqb y l = true ∧
      (y = l ∨ ∃ v, [half] !! j = Some v ∧ y = add v zero).
Proof.
  apply (zero_width_range toy_gauss (heap_of [FloatArray [half]]) eighth
           9%positive 0%Z 1%positive [1] float64 (FloatArray [one])
           (array (FloatArray [half]))
           toy_gauss_finite eq_refl eq_refl eq_refl eq_refl eq_refl eq_refl
           eq_refl eq_refl eq_refl).
Defined.

(** C8 as stated fails.  Under the bounds [1, 1] the action [0.5] is still
    [0.5] after the addition of the noise, and [1.0] after the clip: the
    clip is not a no-op.  A NaN element stays NaN and does not become the
    bound; an int64 action makes the addition raise; an infinite scale
    gives a standard deviation of NaN, not of zero.  The bounds [0.] and
    [-0.] compare equal, and the corruption raises under them.  And under
    the bounds [-0., -0.] the action [0.] stays [0.], which compares equal
    to the bound and is not the bound. *)
Lemma zero_width_clip_moves_value :
  (let h := heap_of [FloatArray [half]] in
   ∃ hA hB hC,
     normal toy_gauss (PyRandomState 9) (FloatArray [zero]) h
     = (Returned (FloatArray [zero]), hA) ∧
     iadd 1%positive (FloatArray [zero]) hA = (Returned (), hB) ∧
     clip_out 1%positive (FloatArray [one]) (FloatArray [one]) hB
     = (Returned (), hC) ∧
     _corrupt_action toy_gauss eighth (PyRandomState 9) 1%positive point h
     = (Returned 1%positive, hC) ∧
     arrays hB !! 1%positive = Some (array (FloatArray [half])) ∧
     arrays hC !! 1%positive = Some (array (FloatArray [one])) ∧
     half ≠ one) ∧
  arrays (_corrupt_action toy_gauss eighth (PyRandomState 9) 1%positive point
            (heap_of [FloatArray [S754_nan]])).2 !! 1%positive
  = Some (array (FloatArray [S754_nan])) ∧
  (_corrupt_action toy_gauss eighth (PyRandomState 9) 1%positive point
     (heap_of [IntArray [1%Z]])).1
  = Raised (UFuncTypeError "Cannot cast ufunc 'add' output from float64 to int64") ∧
  as_float (scalar_multiply infinity (FloatArray [zero])) = [S754_nan] ∧
  (eqb zero minus_zero = true ∧
   (_corrupt_action toy_gauss eighth (PyRandomState 9) 1%positive signed_zeros
      (heap_of [FloatArray [zero]])).1
   = Raised (ValueError "scale < 0")) ∧
  (arrays (_corrupt_action toy_gauss eighth (PyRandomState 9) 1%positive
             minus_zero_point (heap_of [FloatArray [zero]])).2 !! 1%positive
   = Some (array (FloatArray [zero])) ∧
   zero ≠ minus_zero).
Proof.
  split; [|by vm_compute].
  eexists _, _, _. repeat split; try (vm_compute; reflexivity). discriminate.
Qed.



(** C10 on a string supplied as random source, and on an injector seeded
    with 7. *)
Lemma constructed_source_is_RandomState_witness :
  (is_returned (__init__ toy_seeding (env_of (Leaf unit_interval)) eighth
                  (PyObject "generator") 0%Z (heap_of [])).1 = false ∧
   __init__ toy_seeding (env_of (Leaf unit_interval)) eighth
     (PyObject "generator") 0%Z (heap_of [])
   = (Raised AssertionError, heap_of [])) ∧
  isinstance_RandomState
    (_random_state (wrapper (env_of (Leaf unit_interval)) eighth 10)) = true.
Proof.
  split.
  - destruct (proj1 (constructed_source_is_RandomState toy_seeding
                       (env_of (Leaf unit_interval)) eighth
                       (PyObject "generator") 0%Z (heap_of []))
                ltac:(discriminate) eq_refl eq_refl) as [H1 H2].
    split; [exact H1|exact (H2 eq_refl)].
  - apply (proj2 (constructed_source_is_RandomState toy_seeding
                    (env_of (Leaf unit_interval)) eighth (PyInt 7) 0%Z
                    (heap_of []))
             (wrapper (env_of (Leaf unit_interval)) eighth 10)
             (with_generator (heap_of []) 10 7%Z) eq_refl).
Defined.

(** * Further properties *)

Section further_frames.
Context {mt_state TimeStep : Type}.
Context (legacy_gauss : mt_state → float * mt_state).
Implicit Types (h : heap mt_state).
Implicit Types (self : ActionNoiseWrapper mt_state TimeStep).

(** X1: whatever the outcome, the corruption changes neither the shape nor
    the dtype (nor the writeable flag) of any array in the heap. *)
Theorem corruption_keeps_shapes self action h l :
  shape_of (arrays (delivered_action legacy_gauss self action h).2 !! l)
  = shape_of (arrays h !! l).
Proof.
  unfold delivered_action. destruct (ltb zero (_scale self)); [|done].
  apply keeps_shapes_corrupt_nested.
Qed.

(** X3: whatever the outcome, the corruption changes the state of no
    generator but the wrapper's own. *)
Theorem corruption_draws_from_own_generator self action h r r' :
  _random_state self = PyRandomState r →
  r' ≠ r →
  generators (delivered_action legacy_gauss self action h).2 !! r'
  = generators h !! r'.
Proof.
  intros Hr Hne. unfold delivered_action.
  destruct (ltb zero (_scale self)); [|done]. rewrite Hr.
  unfold _corrupt_nested_action, map_structure.
  destruct (assert_same_structure action (_action_spec self)); [done|].
  revert h r' Hne. apply draws_only_bind.
  - apply draws_only_mapM. intros [a sp]. apply draws_only_corrupt_action.
  - intros res. by apply draws_only_pure.
Qed.

(** X2: whatever the outcome, the corruption writes to no array that is not
    a leaf of the action. *)
Theorem corruption_writes_only_the_action self action h l :
  l ∉ flatten action →
  arrays (delivered_action legacy_gauss self action h).2 !! l = arrays h !! l.
Proof.
  intros Hl. unfold delivered_action.
  destruct (ltb zero (_scale self)); [|done].
  unfold _corrupt_nested_action, map_structure.
  destruct (assert_same_structure action (_action_spec self)); [done|].
  unfold mbind, M_bind.
  pose proof (mapM_corrupt_frame legacy_gauss (_scale self) (_random_state self)
                (zip (flatten action) (flatten (_action_spec self))) h l) as Hfr.
  destruct (mapM _ _ h) as [[res|e] h1]; simpl in *; apply Hfr;
    intros Hin; apply Hl; apply list_elem_of_fmap in Hin as ([a sp] & -> & Hin);
    by apply elem_of_zip_l in Hin.
Qed.


(** X5: the wrapper only affects bounded specs.  When no leaf of the spec is
    a [BoundedArray] and the nesting agrees, the action is delivered as it
    is and the heap is untouched, for every scale: no array is written
    (whatever its dtype) and no sample is drawn. *)
Theorem unbounded_spec_is_untouched self action h :
  forallb unbounded (flatten (_action_spec self)) = true →
  congruent action (_action_spec self) →
  delivered_action legacy_gauss self action h = (Returned action, h).
Proof.
  intros Hun Hc. unfold delivered_action.
  destruct (ltb zero (_scale self)); [|done].
  unfold _corrupt_nested_action, map_structure.
  rewrite (congruent_assert_same_structure _ _ Hc).
  pose proof (congruent_flatten_length _ _ Hc) as Hlen.
  assert (Hm : ∀ (l : list (loc * Specs.Array)),
    forallb unbounded l.*2 = true →
    mapM (λ ab, _corrupt_action legacy_gauss (_scale self) (_random_state self)
                  ab.1 ab.2) l h = (Returned l.*1, h)).
  { induction l as [|[a sp] l IH]; simpl; [done|].
    intros [Hsp Hl]%andb_true_iff. destruct sp; [|done].
    unfold mbind, M_bind. simpl. by rewrite (IH Hl). }
  unfold mbind, M_bind. rewrite Hm.
  - rewrite fst_zip by lia. unfold lift. by rewrite unflatten_as_flatten.
  - by rewrite snd_zip by lia.
Qed.
End further_frames.

Section further_leaf.
Context {mt_state : Type}.
Context (legacy_gauss : mt_state → float * mt_state).
Implicit Types (h : heap mt_state) (xs : list float).

(** X6: what a corrupted element is.  Let [sums] be the sums of the
    elements of the leaf and of the noise drawn from the generator, and let
    [minimum <= maximum].  An element of the corrupted leaf compares equal
    to the sum in its place when that sum lies within the bounds, to the
    minimum when the sum is below it, is the maximum when the sum is above
    it, and is NaN when the sum is. *)
Theorem corrupted_value_is_the_clipped_sum
    h h' scale rs action a n dt lo hi :
  bounds_ordered lo hi = true →
  _corrupt_action legacy_gauss scale rs action (BoundedArray n dt lo hi) h
    = (Returned a, h') →
  ∃ r s x sums ys,
    rs = PyRandomState r ∧
    generators h !! r = Some s ∧
    arrays h !! action = Some x ∧
    noisy_sum legacy_gauss scale lo hi (contents_of x) s = Some sums ∧
    arrays h' !! action
    = Some (NdArray (floats (is_scalar (contents_of x)) ys) true) ∧
    length ys = length sums ∧
    ∀ i v y l u,
      sums !! i = Some v → ys !! i = Some y →
      bound lo (length sums) i = Some l → bound hi (length sums) i = Some u →
      (within l u v = true → eqb y v = true) ∧
      (ltb v l = true → eqb y l = true) ∧
      (ltb u v = true → y = u) ∧
      (isnan v = true → isnan y = true).
Proof.
  intros Hord H. pose proof H as H'.
  apply corrupt_action_returned in H'
    as (r & s & x & sums & ys & -> & Ha & Hw & Hdt & Hr & Hsd & Hsum & Hclip).
  rewrite (corrupt_action_bounded legacy_gauss h scale r action n dt lo hi
             x s sums ys) in H by done.
  injection H as _ <-. simpl. rewrite lookup_insert_eq.
  exists r, s, x, sums, ys. repeat split; try done.
  { by rewrite (clip_length _ _ _ _ Hclip), floats_size. }
  all: destruct (clip_lookup _ _ _ _ _ _ Hclip H0)
         as (v' & l' & u' & Hv' & Hl' & Hu' & Hk);
    rewrite floats_as_float in Hv'; rewrite floats_size in Hl', Hu';
    simplify_eq;
    pose proof (bounds_ordered_at _ _ _ _ _ _ Hord H1 H2) as Hlu.
  - intros Hin. by apply (clip_of_inside v l u).
  - intros Hlt. by apply (clip_of_below v l u).
  - intros Hlt. by apply (clip_of_above v l u).
  - intros Hnan. by rewrite (clip_of_isnan v l u y Hlu Hk).
Qed.

Lemma zip_with_add_replicate xs e :
  zip_with add xs (replicate (length xs) e) = (λ x, add x e) <$> xs.
Proof. induction xs as [|x xs IH]; simpl; [done|]. by rewrite IH. Qed.

Lemma broadcast_to_singleton {A} (e : A) n nz :
  broadcast_to [e] n = Some nz → nz = replicate n e.
Proof.
  unfold broadcast_to. case_decide as Hn; [|by intros [= <-]].
  intros [= <-]. simpl in Hn. by subst.
Qed.

(** X7: bounds of one element.  When the minimum and the maximum have a
    single element, a single standard deviation [sd] is computed and a
    single sample is drawn: the noise [normal_sample sd g], where [g] is
    what the sampler returns in the state of the generator.  That same
    noise is added to every element of the action, however many it has,
    and the sums are clipped by the kernel for constant bounds. *)
Theorem scalar_bounds_share_one_sample
    h h' scale rs action a n dt lo hi :
  size lo = 1 → size hi = 1 →
  _corrupt_action legacy_gauss scale rs action (BoundedArray n dt lo hi) h
    = (Returned a, h') →
  ∃ r s x sd l u,
    rs = PyRandomState r ∧
    generators h !! r = Some s ∧
    arrays h !! action = Some x ∧
    leaf_stddev scale (BoundedArray n dt lo hi) = [sd] ∧
    as_float lo = [l] ∧ as_float hi = [u] ∧
    arrays h' !! action
    = Some (NdArray
              (floats (is_scalar (contents_of x))
                 (npy_clip_const l u
                    <$> ((λ v, add v (normal_sample sd (legacy_gauss s).1))
                           <$> as_float (contents_of x))))
              true) ∧
    generators h' !! r = Some (legacy_gauss s).2 ∧
    draws h' = draws h + 1.
Proof.
  intros Hslo Hshi H. pose proof H as H'.
  apply corrupt_action_returned in H'
    as (r & s & x & sums & ys & -> & Ha & Hw & Hdt & Hr & Hsd & Hsum & Hclip).
  rewrite (corrupt_action_bounded legacy_gauss h scale r action n dt lo hi
             x s sums ys) in H by done.
  injection H as _ <-. cbn [arrays generators draws].
  rewrite !lookup_insert_eq.
  destruct (noisy_sum_inv legacy_gauss scale n dt lo hi _ s sums Hsum)
    as (nz & Hnz & ->).
  assert (Hlen : length (leaf_stddev scale (BoundedArray n dt lo hi)) = 1).
  { unfold leaf_stddev, stddev_accepted in *.
    destruct (subtract hi lo) as [range|] eqn:Hsub; [|done].
    rewrite as_float_length, scalar_multiply_size.
    apply subtract_size in Hsub. rewrite Hslo, Hshi in Hsub.
    unfold broadcast_shapes in Hsub. rewrite decide_True in Hsub by done.
    by injection Hsub. }
  assert (∃ sd, leaf_stddev scale (BoundedArray n dt lo hi) = [sd])
    as [sd Hstd].
  { destruct (leaf_stddev scale (BoundedArray n dt lo hi)) as [|sd [|]];
      try done. by exists sd. }
  rewrite Hstd in Hnz.
  rewrite <- as_float_length in Hslo, Hshi.
  destruct (as_float lo) as [|l [|]] eqn:Hlo; try done.
  destruct (as_float hi) as [|u [|]] eqn:Hhi; try done.
  exists r, s, x, sd, l, u. repeat split; try done.
  - simpl in Hnz. destruct (legacy_gauss s) as [g s1] eqn:Hgs. simpl in Hnz.
    apply broadcast_to_singleton in Hnz as ->.
    rewrite (clip_const _ lo hi l u ys Hlo Hhi Hclip), floats_as_float.
    by rewrite <- as_float_length, zip_with_add_replicate.
  - rewrite lookup_insert_eq. unfold leaf_stddev in Hstd. rewrite Hstd.
    simpl. by destruct (legacy_gauss s).
  - unfold leaf_stddev in Hlen. by rewrite Hlen.
Qed.
End further_leaf.

Section further_step.
Context {mt_state TimeStep : Type}.
Context (legacy_gauss : mt_state → float * mt_state).
Context (legacy_seeding : Z → option mt_state).
Implicit Types (h : heap mt_state) (env : Environment mt_state TimeStep).
Implicit Types (self : ActionNoiseWrapper mt_state TimeStep).

(** X8: the samples of a step.  On an action of distinct arrays that is
    ready for it, the corruption goes through and draws one sample for each
    element of the broadcast bounds of each bounded leaf, leaf after leaf in
    flattening order.  The wrapper's generator ends in the state that
    drawing for all the standard deviations in a row leaves, [draws] has
    grown by their number, and the leaf in place [i] holds what the spec
    asks for with the noise drawn in the state that the samples of the
    leaves before [i] have left. *)
Theorem corruption_draws_in_flattening_order self action h r s :
  ltb zero (_scale self) = true →
  _random_state self = PyRandomState r →
  generators h !! r = Some s →
  congruent action (_action_spec self) →
  NoDup (flatten action) →
  action_ready (_scale self) (arrays h) action (_action_spec self) = true →
  ∃ h', delivered_action legacy_gauss self action h = (Returned action, h') ∧
        generators h' !! r
        = Some (draw legacy_gauss
                  (action_stddev (_scale self) (_action_spec self)) s).2 ∧
        draws h'
        = draws h + length (action_stddev (_scale self) (_action_spec self)) ∧
        ∀ i l n dt lo hi x,
          flatten action !! i = Some l →
          flatten (_action_spec self) !! i = Some (BoundedArray n dt lo hi) →
          arrays h !! l = Some x →
          ∃ c,
            corrupted legacy_gauss (_scale self) lo hi (contents_of x)
              (state_before legacy_gauss (_scale self)
                 (flatten (_action_spec self)) i s) = Some c ∧
            arrays h' !! l = Some (NdArray c true).
Proof.
  intros Hs Hr Hg Hc Hnd Hready. unfold delivered_action. rewrite Hs, Hr.
  destruct (corrupt_nested_ready legacy_gauss h action (_action_spec self)
              (_scale self) r s Hc Hg Hready) as (h' & H & Hg' & Hd).
  exists h'. repeat split; try done.
  intros i l n dt lo hi x Hl Hsp Hx.
  destruct (corrupt_nested_explicit legacy_gauss _ _ _ _ _ _ _ Hnd H
              i l n dt lo hi Hl Hsp)
    as (r0 & s0 & x0 & sums & ys & [= <-] & Hg0 & Hx0 & Hsum & Hclip & Hres).
  simplify_eq. eexists. split; [|exact Hres].
  unfold corrupted. rewrite Hsum. simpl. by rewrite Hclip.
Qed.

(** X9: the constructor writes no array, draws no sample and leaves every
    generator of the heap in its state; when it raises, the heap is the one
    it started in: nothing has been allocated. *)
Theorem construction_keeps_the_heap env scale supplied entropy h :
  let res := __init__ legacy_seeding env scale supplied entropy h in
  arrays res.2 = arrays h ∧
  draws res.2 = draws h ∧
  (∀ r s, generators h !! r = Some s → generators res.2 !! r = Some s) ∧
  (is_returned res.1 = false → res.2 = h).
Proof.
  simpl. destruct (ltb scale zero) eqn:Hs; [by rewrite init_negative|].
  rewrite (init_resolution legacy_seeding) by done. simpl.
  assert (Hfresh : ∀ r s s', generators h !! r = Some s →
            <[fresh (dom (generators h)) := s']> (generators h) !! r = Some s).
  { intros r s s' Hr. rewrite lookup_insert_ne; [done|].
    intros <-. apply (is_fresh (dom (generators h))).
    apply elem_of_dom. eauto. }
  destruct (resolution_policy env supplied) as [seed| |[| |r|]]; simpl;
    try destruct (legacy_seeding seed); simpl; repeat split; eauto; done.
Qed.

(** X10: a scale that is NaN is neither negative nor positive: the
    constructor does not reject it, and [step] hands every action to the
    wrapped environment as it is. *)
Theorem nan_scale_disables_the_noise env scale supplied entropy h :
  isnan scale = true →
  (__init__ legacy_seeding env scale supplied entropy h).1
  ≠ Raised (ValueError "scale must be non-negative.") ∧
  ∀ self h1 action h',
    __init__ legacy_seeding env scale supplied entropy h = (Returned self, h1) →
    step legacy_gauss self action h' = env_step env action h'.
Proof.
  intros Hnan. destruct scale; try done. split.
  - rewrite (init_resolution legacy_seeding) by done. simpl.
    destruct (resolution_policy env supplied) as [seed| |[| |r|]]; try done.
    by destruct (legacy_seeding seed).
  - intros self h1 action h' Hin.
    apply init_returned in Hin as (_ & He & _ & Hsc & _).
    rewrite step_delivered. unfold delivered_action. by rewrite Hsc, He.
Qed.

(** X11: the probes fall back on a missing attribute only.  With nothing
    supplied and a scale that is not negative, a [task.random] that is not a
    [RandomState] makes the constructor fail at its assertion, whatever the
    environment's own [random_state]; and so does, when [task.random] is
    missing, an environment's [random_state] that is not a [RandomState]. *)
Theorem found_source_of_other_type_fails env scale entropy h t :
  ltb scale zero = false →
  task env = Some t →
  (∀ o, random t = Some o → isinstance_RandomState o = false →
     __init__ legacy_seeding env scale PyNone entropy h
     = (Raised AssertionError, h)) ∧
  (∀ o, random t = None → random_state env = Some o →
     isinstance_RandomState o = false →
     __init__ legacy_seeding env scale PyNone entropy h
     = (Raised AssertionError, h)).
Proof.
  intros Hs Ht. split.
  - intros o Ho Hi. rewrite (init_resolution legacy_seeding) by done.
    unfold resolution_policy. rewrite Ht, Ho. by destruct o.
  - intros o Ho Hrs Hi. rewrite (init_resolution legacy_seeding) by done.
    unfold resolution_policy. rewrite Ht, Ho, Hrs. by destruct o.
Qed.
End further_step.

Section further_dtype.
Context {mt_state : Type}.
Context (legacy_gauss : mt_state → float * mt_state).
Implicit Types (h : heap mt_state).

(** X12: an int64 action under a bounded spec.  The samples are drawn
    first; then the addition in place refuses to cast the float64 sum and
    raises.  The arrays are as before, and the generator has advanced by one
    sample for each element of the broadcast bounds. *)
Theorem integer_leaf_raises_after_the_draw
    h scale r s action n dt lo hi x range :
  arrays h !! action = Some x →
  writeable x = true →
  dtype_of (contents_of x) = int64 →
  generators h !! r = Some s →
  subtract hi lo = Some range →
  negative_scale (as_float (scalar_multiply scale range)) = false →
  _corrupt_action legacy_gauss scale (PyRandomState r) action
    (BoundedArray n dt lo hi) h
  = (Raised (UFuncTypeError
               "Cannot cast ufunc 'add' output from float64 to int64"),
     Heap (arrays h)
          (<[r := (draw legacy_gauss (as_float (scalar_multiply scale range))
                     s).2]>
             (generators h))
          (draws h + size range)).
Proof.
  intros Ha Hw Hdt Hr Hs Hn. unfold _corrupt_action. rewrite Hs.
  unfold mbind, M_bind, mret, M_ret; simpl. rewrite Hn, Hr.
  destruct (draw legacy_gauss (as_float (scalar_multiply scale range)) s)
    as [noise s'].
  simpl. unfold iadd, get_array, mbind, M_bind; simpl.
  rewrite Ha, Hw, Hdt. simpl. by rewrite scalar_multiply_size.
Qed.
End further_dtype.

(** ** Concrete runs of the further properties *)

(** X3 on a heap with a second generator at reference 5. *)
Lemma corruption_draws_from_own_generator_witness :
  generators (delivered_action toy_gauss (wrapper_of (Leaf unit_interval) eighth)
                (Leaf 1%positive)
                (with_generator (heap_of [FloatArray [half]]) 5 3%Z)).2
    !! 5%positive
  = generators (with_generator (heap_of [FloatArray [half]]) 5 3%Z) !! 5%positive.
Proof.
  apply (corruption_draws_from_own_generator toy_gauss
           (wrapper_of (Leaf unit_interval) eighth) (Leaf 1%positive)
           (with_generator (heap_of [FloatArray [half]]) 5 3%Z)
           9%positive 5%positive eq_refl).
  discriminate.
Defined.

(** X2 on a heap with a second array, which is not in the action. *)
Lemma corruption_writes_only_the_action_witness :
  arrays (delivered_action toy_gauss (wrapper_of (Leaf unit_interval) eighth)
            (Leaf 1%positive)
            (heap_of [FloatArray [half]; FloatArray [half]])).2 !! 2%positive
  = arrays (heap_of [FloatArray [half]; FloatArray [half]]) !! 2%positive.
Proof.
  apply (corruption_writes_only_the_action toy_gauss
           (wrapper_of (Leaf unit_interval) eighth) (Leaf 1%positive)
           (heap_of [FloatArray [half]; FloatArray [half]]) 2%positive).
  simpl. intros H. apply list_elem_of_singleton in H. discriminate.
Defined.


(** X5 on a tuple of an int64 array and a float64 array holding a NaN. *)
Lemma unbounded_spec_is_untouched_witness :
  delivered_action toy_gauss
    (wrapper_of (pair_of_leaves (MkArray [1] int64) (MkArray [2] float64)) eighth)
    (Node KTuple [Leaf 1%positive; Leaf 2%positive])
    (heap_of [IntArray [1%Z]; FloatArray [half; S754_nan]])
  = (Returned (Node KTuple [Leaf 1%positive; Leaf 2%positive]),
     heap_of [IntArray [1%Z]; FloatArray [half; S754_nan]]).
Proof.
  apply (unbounded_spec_is_untouched toy_gauss
           (wrapper_of (pair_of_leaves (MkArray [1] int64) (MkArray [2] float64))
              eighth)
           (Node KTuple [Leaf 1%positive; Leaf 2%positive])
           (heap_of [IntArray [1%Z]; FloatArray [half; S754_nan]]) eq_refl).
  repeat constructor.
Defined.

(** X6 on the action [0.5, 1.0] under bounds [0, 1] and a scale of 1. *)
Lemma corrupted_value_is_the_clipped_sum_witness :
  ∃ r s x sums ys,
    PyRandomState 9 = PyRandomState r ∧
    generators (heap_of [FloatArray [half; one]]) !! r = Some s ∧
    arrays (heap_of [FloatArray [half; one]]) !! 1%positive = Some x ∧
    noisy_sum toy_gauss one (FloatArray [zero]) (FloatArray [one])
      (contents_of x) s = Some sums ∧
    arrays (_corrupt_action toy_gauss one (PyRandomState 9) 1%positive
              unit_interval (heap_of [FloatArray [half; one]])).2 !! 1%positive
    = Some (NdArray (floats (is_scalar (contents_of x)) ys) true) ∧
    length ys = length sums ∧
    ∀ i v y l u,
      sums !! i = Some v → ys !! i = Some y →
      bound (FloatArray [zero]) (length sums) i = Some l →
      bound (FloatArray [one]) (length sums) i = Some u →
      (within l u v = true → eqb y v = true) ∧
      (ltb v l = true → eqb y l = true) ∧
      (ltb u v = true → y = u) ∧
      (isnan v = true → isnan y = true).
Proof.
  apply (corrupted_value_is_the_clipped_sum toy_gauss
           (heap_of [FloatArray [half; one]]) _ one (PyRandomState 9)
           1%positive 1%positive [1] float64 (FloatArray [zero])
           (FloatArray [one]) eq_refl eq_refl).
Defined.

(** X7 on an action of three elements under the bounds [0] and [1]. *)
Lemma scalar_bounds_share_one_sample_witness :
  ∃ r s x sd l u,
    PyRandomState 9 = PyRandomState r ∧
    generators (heap_of [FloatArray [half; zero; one]]) !! r = Some s ∧
    arrays (heap_of [FloatArray [half; zero; one]]) !! 1%positive = Some x ∧
    leaf_stddev eighth unit_interval = [sd] ∧
    [zero] = [l] ∧ [one] = [u] ∧
    arrays (_corrupt_action toy_gauss eighth (PyRandomState 9) 1%positive
              unit_interval (heap_of [FloatArray [half; zero; one]])).2
      !! 1%positive
    = Some (NdArray
              (floats (is_scalar (contents_of x))
                 (npy_clip_const l u
                    <$> ((λ v, add v (normal_sample sd (toy_gauss s).1))
                           <$> as_float (contents_of x))))
              true) ∧
    generators (_corrupt_action toy_gauss eighth (PyRandomState 9) 1%positive
                  unit_interval (heap_of [FloatArray [half; zero; one]])).2
      !! r = Some (toy_gauss s).2 ∧
    draws (_corrupt_action toy_gauss eighth (PyRandomState 9) 1%positive
             unit_interval (heap_of [FloatArray [half; zero; one]])).2
    = draws (heap_of [FloatArray [half; zero; one]]) + 1.
Proof.
  apply (scalar_bounds_share_one_sample toy_gauss
           (heap_of [FloatArray [half; zero; one]]) _ eighth (PyRandomState 9)
           1%positive 1%positive [1] float64 (FloatArray [zero])
           (FloatArray [one]) eq_refl eq_refl eq_refl).
Defined.

(** X8 on a tuple of a leaf with bounds of one element and a leaf with
    bounds of three. *)
Lemma corruption_draws_in_flattening_order_witness :
  ∃ h',
    delivered_action toy_gauss
      (wrapper_of (pair_of_leaves unit_interval unit_cube) eighth)
      (Node KTuple [Leaf 1%positive; Leaf 2%positive])
      (heap_of [FloatArray [half]; FloatArray [half; half; half]])
    = (Returned (Node KTuple [Leaf 1%positive; Leaf 2%positive]), h') ∧
    generators h' !! 9%positive
    = Some (draw toy_gauss
              (action_stddev eighth (pair_of_leaves unit_interval unit_cube))
              0%Z).2 ∧
    draws h'
    = draws (heap_of [FloatArray [half]; FloatArray [half; half; half]])
      + length (action_stddev eighth (pair_of_leaves unit_interval unit_cube)) ∧
    ∀ i l n dt lo hi x,
      [1%positive; 2%positive] !! i = Some l →
      [unit_interval; unit_cube] !! i = Some (BoundedArray n dt lo hi) →
      arrays (heap_of [FloatArray [half]; FloatArray [half; half; half]]) !! l
      = Some x →
      ∃ c,
        corrupted toy_gauss eighth lo hi (contents_of x)
          (state_before toy_gauss eighth [unit_interval; unit_cube] i 0%Z)
        = Some c ∧
        arrays h' !! l = Some (NdArray c true).
Proof.
  apply (corruption_draws_in_flattening_order toy_gauss
           (wrapper_of (pair_of_leaves unit_interval unit_cube) eighth)
           (Node KTuple [Leaf 1%positive; Leaf 2%positive])
           (heap_of [FloatArray [half]; FloatArray [half; half; half]])
           9%positive 0%Z eq_refl eq_refl eq_refl); [| |reflexivity].
  - repeat constructor.
  - apply (NoDup_cons_2 1%positive [2%positive]);
      [|apply NoDup_singleton].
    intros H. apply list_elem_of_singleton in H. discriminate.
Defined.

(** X9 on a construction with the seed 7. *)
Lemma construction_keeps_the_heap_witness :
  let res := __init__ toy_seeding (env_of (Leaf unit_interval)) eighth
               (PyInt 7) 0%Z (heap_of [FloatArray [half]]) in
  arrays res.2 = arrays (heap_of [FloatArray [half]]) ∧
  draws res.2 = draws (heap_of [FloatArray [half]]) ∧
  (∀ r s, generators (heap_of [FloatArray [half]]) !! r = Some s →
          generators res.2 !! r = Some s) ∧
  (is_returned res.1 = false → res.2 = heap_of [FloatArray [half]]).
Proof.
  apply (construction_keeps_the_heap toy_seeding (env_of (Leaf unit_interval))
           eighth (PyInt 7) 0%Z (heap_of [FloatArray [half]])).
Defined.

(** X10 on a construction with a supplied generator. *)
Lemma nan_scale_disables_the_noise_witness :
  (__init__ toy_seeding (env_of (Leaf unit_interval)) S754_nan
     (PyRandomState 9) 0%Z (heap_of [])).1
  ≠ Raised (ValueError "scale must be non-negative.") ∧
  ∀ self h1 action h',
    __init__ toy_seeding (env_of (Leaf unit_interval)) S754_nan
      (PyRandomState 9) 0%Z (heap_of []) = (Returned self, h1) →
    step toy_gauss self action h'
    = env_step (env_of (Leaf unit_interval)) action h'.
Proof.
  apply (nan_scale_disables_the_noise toy_gauss toy_seeding
           (env_of (Leaf unit_interval)) S754_nan (PyRandomState 9) 0%Z
           (heap_of []) eq_refl).
Defined.

(** X11 on a task whose [random] is [None], in an environment that has a
    generator of its own. *)
Lemma found_source_of_other_type_fails_witness :
  __init__ toy_seeding (probe_env (Leaf unit_interval)) eighth PyNone 0%Z
    (other_heap [])
  = (Raised AssertionError, other_heap []).
Proof.
  apply (proj1 (found_source_of_other_type_fails toy_seeding
                  (probe_env (Leaf unit_interval)) eighth 0%Z (other_heap [])
                  {| random := Some PyNone |} eq_refl eq_refl)
           PyNone eq_refl eq_refl).
Defined.

(** X12 on the action [1] under the int64 bounds [0] and [3]. *)
Lemma integer_leaf_raises_after_the_draw_witness :
  _corrupt_action toy_gauss eighth (PyRandomState 9) 1%positive discrete
    (heap_of [IntArray [1%Z]])
  = (Raised (UFuncTypeError
               "Cannot cast ufunc 'add' output from float64 to int64"),
     Heap (arrays (heap_of [IntArray [1%Z]]))
          (<[9%positive :=
               (draw toy_gauss
                  (as_float (scalar_multiply eighth (IntArray [3%Z]))) 0%Z).2]>
             (generators (heap_of [IntArray [1%Z]])))
          (draws (heap_of [IntArray [1%Z]]) + size (IntArray [3%Z]))).
Proof.
  apply (integer_leaf_raises_after_the_draw toy_gauss
           (heap_of [IntArray [1%Z]]) eighth 9%positive 0%Z 1%positive
           [1] int64 (IntArray [0%Z]) (IntArray [3%Z]) (array (IntArray [1%Z]))
           (IntArray [3%Z])
           eq_refl eq_refl eq_refl eq_refl eq_refl eq_refl).
Defined.
